(** * Rack thermal visualisation: the recompute engine of [extension.py]

    A shallow embedding of [MyExtension._recompute_and_color],
    [_apply_color_for_prim] and [_restore_colors], and the properties of
    the recompute pass, the colour classification and the override cache.

    Numbers are Python floats, that is IEEE 754 binary64: they are
    modelled by Rocq's primitive floats, which are binary64 as well, so
    rounding, infinities and NaN behave as in the program.  Python's [/]
    raises [ZeroDivisionError] on a zero divisor; that is modelled too.

    The USD stage is modelled as a finite map from prim paths to prims, a
    prim as a finite map from attribute names to attributes, an attribute
    as an optional authored value.  The store is untyped and has a single
    layer: [Set] always succeeds and [RemoveProperty] deletes the
    attribute. *)

From Stdlib Require Import ZArith List Bool Floats.
From stdpp Require Import gmap strings list fin_maps.

Set Warnings "-inexact-float".

(** ** Values and attributes *)

(** [pxr.Gf.Vec3f]. *)
Record Vec3f := Gf_Vec3f { vec_r : float; vec_g : float; vec_b : float }.

(** What an attribute can hold: a double, a colour array, or a value that
    Python's [float()] rejects (a token, an asset path, an array ...). *)
Inductive Value :=
| VDouble (x : float)
| VColor3fArray (cs : list Vec3f)
| VOpaque (repr : string).

(** [float(v)]; [None] stands for the exception it raises. *)
Definition py_float (v : Value) : option float :=
  match v with
  | VDouble x => Some x
  | VColor3fArray _ => None
  | VOpaque _ => None
  end.

(** A [Usd.Attribute] that exists on a prim: its authored value, if any. *)
Record Attribute := mkAttribute { attr_value : option Value }.

Definition HasAuthoredValue (a : Attribute) : bool :=
  match attr_value a with Some _ => true | None => false end.

Abbreviation Prim := (gmap string Attribute).

Definition GetAttribute (prim : Prim) (name : string) : option Attribute :=
  prim !! name.

(** [prim.CreateAttribute(name, ...)]: a new attribute has no authored value;
    an existing one is returned as it is. *)
Definition CreateAttribute (prim : Prim) (name : string) : Prim :=
  match prim !! name with
  | Some _ => prim
  | None => <[name := mkAttribute None]> prim
  end.

(** [prim.GetAttribute(name).Set(v)] on an attribute that exists. *)
Definition AttrSet (prim : Prim) (name : string) (v : Value) : Prim :=
  match prim !! name with
  | Some _ => <[name := mkAttribute (Some v)]> prim
  | None => prim
  end.

Definition RemoveProperty (prim : Prim) (name : string) : Prim :=
  delete name prim.

(** The idiom of the source:
    [attr = prim.GetAttribute(n); if not attr: attr = prim.CreateAttribute(n, ...); attr.Set(v)]. *)
Definition set_or_create (prim : Prim) (name : string) (v : Value) : Prim :=
  match GetAttribute prim name with
  | Some _ => AttrSet prim name v
  | None => AttrSet (CreateAttribute prim name) name v
  end.

(** ** The stage *)

(** [prims]: the prims by path ([stage.GetPrimAtPath]); [Traverse]: the paths
    in the order [stage.Traverse()] yields them. *)
Record Stage := mkStage {
  prims : gmap string Prim;
  Traverse : list string
}.

(** ** The extension object and its host context *)

(** [_orig_colors] is a Python dict: insertion ordered, keys unique.  A
    value [None] is the marker "no authored colour". *)
Abbreviation Cache := (list (string * option Value)).

Record Ext := mkExt {
  usd_stage : option Stage;
  _orig_colors : Cache;
  _cp_model : float;
  _target_dt_model : float;
  _mode_model : Z;
  _color_override_enabled_model : bool
}.

Definition _get_stage (self : Ext) : option Stage := usd_stage self.

Definition with_orig_colors (self : Ext) (c : Cache) : Ext :=
  {| usd_stage := usd_stage self;
     _orig_colors := c;
     _cp_model := _cp_model self;
     _target_dt_model := _target_dt_model self;
     _mode_model := _mode_model self;
     _color_override_enabled_model := _color_override_enabled_model self |}.

Definition with_stage (self : Ext) (st : option Stage) : Ext :=
  {| usd_stage := st;
     _orig_colors := _orig_colors self;
     _cp_model := _cp_model self;
     _target_dt_model := _target_dt_model self;
     _mode_model := _mode_model self;
     _color_override_enabled_model := _color_override_enabled_model self |}.

(** [stage.GetPrimAtPath(path)]; [None] is the invalid prim. *)
Definition GetPrimAtPath (self : Ext) (path : string) : option Prim :=
  match usd_stage self with
  | Some st => prims st !! path
  | None => None
  end.

(** A prim is a handle into the stage: an edit of the prim is an edit of
    the stage that owns it. *)
Definition put_prim (self : Ext) (path : string) (prim : Prim) : Ext :=
  match usd_stage self with
  | Some st =>
      with_stage self
        (Some {| prims := <[path := prim]> (prims st); Traverse := Traverse st |})
  | None => self
  end.

(** ** The override cache *)

Fixpoint cache_get (c : Cache) (path : string) : option (option Value) :=
  match c with
  | [] => None
  | (k, v) :: rest => if String.eqb k path then Some v else cache_get rest path
  end.

(** [path in self._orig_colors]. *)
Definition cache_mem (c : Cache) (path : string) : bool :=
  match cache_get c path with Some _ => true | None => false end.

(** [self._orig_colors[path] = v] for a key that is not in the dict. *)
Definition cache_add (c : Cache) (path : string) (v : option Value) : Cache :=
  c ++ [(path, v)].

(** ** Classification *)

Definition tol : float := 0.001%float.

Inductive Band := Neutral | Under | Match | Over.

Definition classify (delta_t target_dt : float) : Band :=
  if (target_dt <=? 0)%float then Neutral
  else if (delta_t <? target_dt - tol)%float then Under
  else if (abs (delta_t - target_dt) <=? tol)%float then Match
  else Over.

Definition band_color (b : Band) : Vec3f :=
  match b with
  | Neutral => Gf_Vec3f 0.5 0.5 0.5
  | Under => Gf_Vec3f 0 1 0
  | Match => Gf_Vec3f 1 1 0
  | Over => Gf_Vec3f 1 0 0
  end.

Definition displayColor : string := "primvars:displayColor".
Definition rackPowerW : string := "user:rackPowerW".
Definition mdotActual : string := "user:mdotActual".
Definition mdotRequired : string := "user:mdotRequired".

(** The authored display colour of a prim, as the cache records it. *)
Definition authored_color (prim : Prim) : option Value :=
  match GetAttribute prim displayColor with
  | Some color_attr => attr_value color_attr
  | None => None
  end.

Definition _apply_color_for_prim (self : Ext) (path : string)
    (delta_t target_dt : float) : Ext :=
  match _get_stage self with
  | None => self
  | Some _ =>
    match GetPrimAtPath self path with
    | None => self
    | Some prim =>
      let self1 :=
        if cache_mem (_orig_colors self) path then self
        else with_orig_colors self
               (cache_add (_orig_colors self) path (authored_color prim)) in
      let color := band_color (classify delta_t target_dt) in
      put_prim self1 path (set_or_create prim displayColor (VColor3fArray [color]))
    end
  end.

(** ** The restore pass *)

Definition restore_one (self : Ext) (entry : string * option Value) : Ext :=
  let '(path, orig) := entry in
  match GetPrimAtPath self path with
  | None => self
  | Some prim =>
    match orig with
    | None =>
      match GetAttribute prim displayColor with
      | Some _ => put_prim self path (RemoveProperty prim displayColor)
      | None => self
      end
    | Some v => put_prim self path (set_or_create prim displayColor v)
    end
  end.

Definition _restore_colors (self : Ext) : Ext :=
  match _get_stage self with
  | None => self
  | Some _ =>
    with_orig_colors (fold_left restore_one (_orig_colors self) self) []
  end.

(** ** The recompute pass *)

(** How a call ends: it returns, or an exception escapes it.  Either way
    the edits made so far stay. *)
Inductive Outcome :=
| Returned (self : Ext)
| Raised (self : Ext).

Definition final (o : Outcome) : Ext :=
  match o with Returned s => s | Raised s => s end.

(** [x / y] on Python floats; [None] is [ZeroDivisionError]. *)
Definition py_div (x y : float) : option float :=
  if (y =? 0)%float then None else Some (x / y)%float.

(** [max(a, b)]: [b] when [b > a], else [a]. *)
Definition py_max (a b : float) : float :=
  if (a <? b)%float then b else a.

(** The body of [for prim in stage.Traverse()], for the prim at [path]. *)
Definition loop_body (cp target_dt : float) (mode : Z)
    (self : Ext) (path : string) : Outcome :=
  match GetPrimAtPath self path with
  | None => Returned self
  | Some prim =>
    match GetAttribute prim rackPowerW with
    | None => Returned self
    | Some attr_p =>
      match attr_value attr_p with
      | None => Returned self
      | Some raw_p =>
        match py_float raw_p with
        | None => Returned self
        | Some power_w =>
          if (power_w <=? 0)%float then Returned self
          else if (mode =? 0)%Z then
            if (target_dt <=? 0)%float then Returned self
            else
              match py_div power_w (cp * target_dt)%float with
              | None => Raised self
              | Some m_required =>
                let self1 :=
                  put_prim self path
                    (set_or_create prim mdotRequired (VDouble m_required)) in
                Returned (_apply_color_for_prim self1 path target_dt target_dt)
              end
          else
            match GetAttribute prim mdotActual with
            | None => Returned self
            | Some attr_m =>
              match attr_value attr_m with
              | None => Returned self
              | Some raw_m =>
                match py_float raw_m with
                | None => Returned self
                | Some mdot =>
                  if (mdot <=? 0)%float then Returned self
                  else
                    match py_div power_w (cp * mdot)%float with
                    | None => Raised self
                    | Some delta_t =>
                      Returned (_apply_color_for_prim self path delta_t target_dt)
                    end
                end
              end
            end
        end
      end
    end
  end.

Fixpoint for_each (body : Ext -> string -> Outcome) (self : Ext)
    (paths : list string) : Outcome :=
  match paths with
  | [] => Returned self
  | path :: rest =>
    match body self path with
    | Returned self' => for_each body self' rest
    | Raised self' => Raised self'
    end
  end.

Definition _recompute_and_color (self : Ext) : Outcome :=
  match _get_stage self with
  | None => Returned self
  | Some stage =>
    let cp := py_max (_cp_model self) 1e-6%float in
    let target_dt := _target_dt_model self in
    let mode := _mode_model self in
    let enable_override := _color_override_enabled_model self in
    if negb enable_override then Returned (_restore_colors self)
    else
      for_each (loop_body cp target_dt mode)
        (with_orig_colors self []) (Traverse stage)
  end.

(** ** Vocabulary of the properties *)

Definition keys (c : Cache) : list string := map fst c.

(** [recorded c p orig]: the dict after "record [orig] for [p] unless
    [p] is a key already". *)
Definition recorded (c : Cache) (p : string) (orig : option Value) : Cache :=
  if cache_mem c p then c else cache_add c p orig.

(** The configuration of the extension: what no pass changes. *)
Definition same_config (w w' : Ext) : Prop :=
  _cp_model w' = _cp_model w ∧
  _target_dt_model w' = _target_dt_model w ∧
  _mode_model w' = _mode_model w ∧
  _color_override_enabled_model w' = _color_override_enabled_model w ∧
  (Traverse <$> usd_stage w') = (Traverse <$> usd_stage w).

(** [edits w w' p prim prim']: from [w] to [w'] the prim at [p] went from
    [prim] to [prim'], the original colour of [p] was recorded if it had
    not been, and nothing else changed. *)
Record edits (w w' : Ext) (p : string) (prim prim' : Prim) : Prop := {
  ed_before : GetPrimAtPath w p = Some prim;
  ed_after : GetPrimAtPath w' p = Some prim';
  ed_others : ∀ q, q ≠ p → GetPrimAtPath w' q = GetPrimAtPath w q;
  ed_cache : _orig_colors w' = recorded (_orig_colors w) p (authored_color prim);
  ed_config : same_config w w'
}.

(** [float(attr.Get())] of an authored attribute [name], when the prim has
    it and the conversion does not raise. *)
Definition read_float (prim : Prim) (name : string) : option float :=
  match GetAttribute prim name with
  | Some a =>
    match attr_value a with
    | Some raw => py_float raw
    | None => None
    end
  | None => None
  end.

(** The heat-load test of the pass: the prim goes on when its heat load
    is authored, converts to a float and is not [<= 0]. *)
Definition heat_load (prim : Prim) : option float :=
  match read_float prim rackPowerW with
  | Some power_w => if (power_w <=? 0)%float then None else Some power_w
  | None => None
  end.

Definition authored (v : Value) : Attribute := mkAttribute (Some v).

Definition color_of (d t : float) : Value :=
  VColor3fArray [band_color (classify d t)].

(** What an iteration does to a prim it does not skip. *)
Inductive processed (cp t : float) (mode : Z) (prim : Prim) : Prim → Prop :=
| processed_design power_w m :
    mode = 0%Z → heat_load prim = Some power_w →
    (t <=? 0)%float = false →
    py_div power_w (cp * t)%float = Some m →
    processed cp t mode prim
      (<[displayColor := authored (color_of t t)]>
         (<[mdotRequired := authored (VDouble m)]> prim))
| processed_audit power_w mdot d :
    mode ≠ 0%Z → heat_load prim = Some power_w →
    read_float prim mdotActual = Some mdot →
    (mdot <=? 0)%float = false →
    py_div power_w (cp * mdot)%float = Some d →
    processed cp t mode prim (<[displayColor := authored (color_of d t)]> prim).


(** What a world shows of a prim: one attribute, and the authored display
    colour. *)
Definition attr_at (w : Ext) (p name : string) : option Attribute :=
  match GetPrimAtPath w p with
  | Some prim => prim !! name
  | None => None
  end.

Definition color_at (w : Ext) (p : string) : option Value :=
  match GetPrimAtPath w p with
  | Some prim => authored_color prim
  | None => None
  end.

(** What holds of the world [w] reached by a full pass that started, with
    an empty dict, in [w0]. *)
Record pass_inv (t : float) (mode : Z) (w0 w : Ext) : Prop := {
  pi_config : same_config w0 w;
  pi_exists : ∀ q, is_Some (GetPrimAtPath w q) ↔ is_Some (GetPrimAtPath w0 q);
  pi_frame : ∀ q name, name ≠ displayColor → name ≠ mdotRequired →
    attr_at w q name = attr_at w0 q name;
  pi_audit : mode ≠ 0%Z →
    ∀ q, attr_at w q mdotRequired = attr_at w0 q mdotRequired;
  pi_nodup : NoDup (keys (_orig_colors w));
  pi_untouched : ∀ q, q ∉ keys (_orig_colors w) →
    GetPrimAtPath w q = GetPrimAtPath w0 q;
  pi_touched : ∀ q, q ∈ keys (_orig_colors w) →
    ∃ prim0 prim d,
      GetPrimAtPath w0 q = Some prim0 ∧ is_Some (heat_load prim0) ∧
      cache_get (_orig_colors w) q = Some (authored_color prim0) ∧
      GetPrimAtPath w q = Some prim ∧
      prim !! displayColor = Some (authored (color_of d t))
}.

(** The effect of the restore pass on a prim whose cached original is
    [orig]. *)
Definition restore_prim (orig : option Value) (prim : Prim) : Prim :=
  match orig with
  | None => delete displayColor prim
  | Some v => <[displayColor := authored v]> prim
  end.

(** The user ticks or clears the "enable colour override" box. *)
Definition with_enabled (self : Ext) (b : bool) : Ext :=
  {| usd_stage := usd_stage self;
     _orig_colors := _orig_colors self;
     _cp_model := _cp_model self;
     _target_dt_model := _target_dt_model self;
     _mode_model := _mode_model self;
     _color_override_enabled_model := b |}.

(** The user edits the target temperature rise. *)
Definition with_target_dt (self : Ext) (t : float) : Ext :=
  {| usd_stage := usd_stage self;
     _orig_colors := _orig_colors self;
     _cp_model := _cp_model self;
     _target_dt_model := t;
     _mode_model := _mode_model self;
     _color_override_enabled_model := _color_override_enabled_model self |}.

(** The four ways in which a prim has no usable heat load: the attribute
    is missing, has no authored value, does not convert to a float, or is
    [<= 0]. *)
Inductive heat_load_absent (prim : Prim) : Prop :=
| heat_missing :
    GetAttribute prim rackPowerW = None → heat_load_absent prim
| heat_unauthored a :
    GetAttribute prim rackPowerW = Some a → HasAuthoredValue a = false →
    heat_load_absent prim
| heat_unparsable a raw :
    GetAttribute prim rackPowerW = Some a → attr_value a = Some raw →
    py_float raw = None → heat_load_absent prim
| heat_not_positive a raw power_w :
    GetAttribute prim rackPowerW = Some a → attr_value a = Some raw →
    py_float raw = Some power_w → (power_w <=? 0)%float = true →
    heat_load_absent prim.

(** The same for the actual flow, which the audit mode reads. *)
Inductive flow_absent (prim : Prim) : Prop :=
| flow_missing :
    GetAttribute prim mdotActual = None → flow_absent prim
| flow_unauthored a :
    GetAttribute prim mdotActual = Some a → HasAuthoredValue a = false →
    flow_absent prim
| flow_unparsable a raw :
    GetAttribute prim mdotActual = Some a → attr_value a = Some raw →
    py_float raw = None → flow_absent prim
| flow_not_positive a raw mdot :
    GetAttribute prim mdotActual = Some a → attr_value a = Some raw →
    py_float raw = Some mdot → (mdot <=? 0)%float = true →
    flow_absent prim.

(** ** Sample worlds *)

Definition blue : Value := VColor3fArray [Gf_Vec3f 0 0 1].

(** A rack with a heat load, an actual flow and an authored blue colour. *)
Definition rack (power_w mdot : float) : Prim :=
  <[rackPowerW := authored (VDouble power_w)]>
    (<[mdotActual := authored (VDouble mdot)]>
       (<[displayColor := authored blue]> ∅)).

(** A prim with no heat load and no colour. *)
Definition floor : Prim := <["visibility" := authored (VOpaque "inherited")]> ∅.

Definition sample_stage : Stage :=
  {| prims := <["/World/Rack" := rack 1000 0.05]> (<["/World/Floor" := floor]> ∅);
     Traverse := ["/World/Floor"; "/World/Rack"] |}.

(** The audit mode, a target of 10 K, the override enabled. *)
Definition sample_world : Ext :=
  {| usd_stage := Some sample_stage;
     _orig_colors := [];
     _cp_model := 1005;
     _target_dt_model := 10;
     _mode_model := 1;
     _color_override_enabled_model := true |}.

(** No stage is loaded, and the dict still has an entry. *)
Definition stageless_world : Ext :=
  {| usd_stage := None;
     _orig_colors := [("/World/Rack", Some blue)];
     _cp_model := 1005;
     _target_dt_model := 10;
     _mode_model := 1;
     _color_override_enabled_model := true |}.

Definition red : Value := VColor3fArray [band_color Over].


Definition gray : Value := VColor3fArray [band_color Neutral].

Definition one_rack (power_w mdot : float) : Stage :=
  {| prims := <["/World/Rack" := rack power_w mdot]> ∅;
     Traverse := ["/World/Rack"] |}.

(** The audit mode at the lower edge of the tolerance band: the target is
    1 K and the temperature rise is [0.999 / (1 * 1)], which is
    [1 - 0.001] in binary64. *)
Definition boundary_world : Ext :=
  {| usd_stage := Some (one_rack 0.999 1);
     _orig_colors := [];
     _cp_model := 1;
     _target_dt_model := 1;
     _mode_model := 1;
     _color_override_enabled_model := true |}.

(** The smallest positive binary64 number, [5e-324] in Python. *)
Definition tiny : float := 0x1p-1074%float.

(** The audit mode with the specific heat at its floor and an actual flow
    that is positive and tiny. *)
Definition underflow_world : Ext :=
  {| usd_stage := Some (one_rack 1000 tiny);
     _orig_colors := [];
     _cp_model := 0;
     _target_dt_model := 10;
     _mode_model := 1;
     _color_override_enabled_model := true |}.




(** The actual-flow test of the audit mode, as [heat_load]. *)
Definition actual_flow (prim : Prim) : option float :=
  match read_float prim mdotActual with
  | Some mdot => if (mdot <=? 0)%float then None else Some mdot
  | None => None
  end.

(** The audit mode with an actual flow that is authored and is NaN. *)
Definition nan_flow_world : Ext :=
  {| usd_stage := Some (one_rack 1000 nan);
     _orig_colors := [];
     _cp_model := 1005;
     _target_dt_model := 10;
     _mode_model := 1;
     _color_override_enabled_model := true |}.

(** ** The rest of the extension: start, shutdown, the batch form *)






(** ** Vocabulary of the further properties *)

(** What one iteration of the pass makes of a prim, read off the prim
    alone: it skips it, raises, or writes it. *)
Inductive Step :=
| StepSkip
| StepRaise
| StepWrite (prim' : Prim).

Definition step_prim (cp t : float) (mode : Z) (prim : Prim) : Step :=
  match heat_load prim with
  | None => StepSkip
  | Some power_w =>
    if (mode =? 0)%Z then
      if (t <=? 0)%float then StepSkip
      else
        match py_div power_w (cp * t)%float with
        | None => StepRaise
        | Some m =>
          StepWrite (<[displayColor := authored (color_of t t)]>
                       (<[mdotRequired := authored (VDouble m)]> prim))
        end
    else
      match actual_flow prim with
      | None => StepSkip
      | Some mdot =>
        match py_div power_w (cp * mdot)%float with
        | None => StepRaise
        | Some delta_t =>
          StepWrite (<[displayColor := authored (color_of delta_t t)]> prim)
        end
      end
  end.

(** The prim after an iteration that does not raise. *)
Definition settle (cp t : float) (mode : Z) (prim : Prim) : Prim :=
  match step_prim cp t mode prim with
  | StepWrite prim' => prim'
  | _ => prim
  end.


(** The specific heat the pass works with. *)
Definition clamped_cp (self : Ext) : float := py_max (_cp_model self) 1e-6.

(** The full pass, as [_recompute_and_color] runs it when a stage is
    loaded and the override is enabled. *)
Definition full_pass (self : Ext) (stage : Stage) : Outcome :=
  for_each
    (loop_body (clamped_cp self) (_target_dt_model self) (_mode_model self))
    (with_orig_colors self []) (Traverse stage).

Definition is_raised (o : Outcome) : bool :=
  match o with Raised _ => true | Returned _ => false end.

(** * Properties *)


(** ** The attribute store *)

Lemma set_or_create_insert (prim : Prim) (name : string) (v : Value) :
  set_or_create prim name v = <[name := mkAttribute (Some v)]> prim.
Proof.
  unfold set_or_create, GetAttribute, AttrSet, CreateAttribute.
  destruct (prim !! name) eqn:E; rewrite ?E; [done|].
  rewrite lookup_insert_eq. by rewrite insert_insert_eq.
Qed.


Lemma authored_color_insert_ne (prim : Prim) (name : string) (a : Attribute) :
  name ≠ displayColor →
  authored_color (<[name := a]> prim) = authored_color prim.
Proof.
  intros Hne. unfold authored_color, GetAttribute. by rewrite lookup_insert_ne.
Qed.


Lemma GetPrimAtPath_with_orig_colors (self : Ext) (c : Cache) (q : string) :
  GetPrimAtPath (with_orig_colors self c) q = GetPrimAtPath self q.
Proof. done. Qed.

Lemma GetPrimAtPath_put_prim (self : Ext) (p q : string) (x : Prim) :
  is_Some (usd_stage self) →
  GetPrimAtPath (put_prim self p x) q =
    if decide (p = q) then Some x else GetPrimAtPath self q.
Proof.
  intros [st Hst]. unfold GetPrimAtPath, put_prim. rewrite Hst. simpl.
  apply lookup_insert.
Qed.

Lemma GetPrimAtPath_stage (self : Ext) (p : string) (prim : Prim) :
  GetPrimAtPath self p = Some prim → is_Some (usd_stage self).
Proof. unfold GetPrimAtPath. destruct (usd_stage self); [eauto | done]. Qed.

(** ** The cache as a dict *)

Lemma cache_get_None (c : Cache) (p : string) :
  cache_get c p = None ↔ p ∉ keys c.
Proof.
  induction c as [|[k v] c IH]; simpl.
  - split; [intros _; apply not_elem_of_nil | done].
  - destruct (String.eqb_spec k p) as [->|Hne].
    + split; [done | intros H; exfalso; apply H; left].
    + rewrite IH, not_elem_of_cons. split; [intros H; split; [congruence | done] | by intros [_ H]].
Qed.

Lemma cache_mem_false (c : Cache) (p : string) :
  cache_mem c p = false ↔ p ∉ keys c.
Proof.
  unfold cache_mem. rewrite <- cache_get_None.
  destruct (cache_get c p); naive_solver.
Qed.

Lemma cache_mem_true (c : Cache) (p : string) :
  cache_mem c p = true ↔ p ∈ keys c.
Proof.
  destruct (cache_mem c p) eqn:E.
  - split; [intros _ | done].
    destruct (decide (p ∈ keys c)) as [|Hn]; [done|].
    apply cache_mem_false in Hn. congruence.
  - apply cache_mem_false in E. split; [done | intros; contradiction].
Qed.

Lemma cache_get_app (c1 c2 : Cache) (p : string) :
  cache_get (c1 ++ c2) p =
    match cache_get c1 p with Some v => Some v | None => cache_get c2 p end.
Proof.
  induction c1 as [|[k v] c1 IH]; simpl; [done|].
  by destruct (String.eqb k p).
Qed.

Lemma cache_get_add (c : Cache) (p q : string) (v : option Value) :
  cache_get (cache_add c p v) q =
    match cache_get c q with
    | Some o => Some o
    | None => if decide (p = q) then Some v else None
    end.
Proof.
  unfold cache_add. rewrite cache_get_app. simpl.
  destruct (cache_get c q); [done|].
  destruct (String.eqb_spec p q); case_decide; congruence.
Qed.

Lemma keys_add (c : Cache) (p : string) (v : option Value) :
  keys (cache_add c p v) = keys c ++ [p].
Proof. unfold keys, cache_add. by rewrite map_app. Qed.


(** ** One colour write *)

Lemma same_config_refl (w : Ext) : same_config w w.
Proof. by repeat split. Qed.

Lemma same_config_trans (w1 w2 w3 : Ext) :
  same_config w1 w2 → same_config w2 w3 → same_config w1 w3.
Proof.
  intros (?&?&?&?&?) (?&?&?&?&?). repeat split; congruence.
Qed.

Lemma same_config_put_prim (w : Ext) (p : string) (x : Prim) :
  same_config w (put_prim w p x).
Proof.
  unfold put_prim. destruct (usd_stage w) eqn:E; [|apply same_config_refl].
  repeat split; simpl; try done. by rewrite E.
Qed.

Lemma same_config_with_orig_colors (w : Ext) (c : Cache) :
  same_config w (with_orig_colors w c).
Proof. by repeat split. Qed.

Lemma orig_colors_put_prim (w : Ext) (p : string) (x : Prim) :
  _orig_colors (put_prim w p x) = _orig_colors w.
Proof. unfold put_prim. by destruct (usd_stage w). Qed.

Lemma apply_color_edits (w : Ext) (p : string) (prim : Prim) (d t : float) :
  GetPrimAtPath w p = Some prim →
  edits w (_apply_color_for_prim w p d t) p prim
    (<[displayColor :=
         mkAttribute (Some (VColor3fArray [band_color (classify d t)]))]> prim).
Proof.
  intros Hp. pose proof (GetPrimAtPath_stage _ _ _ Hp) as Hst.
  unfold _apply_color_for_prim, _get_stage. destruct Hst as [st Hst].
  rewrite Hst, Hp, set_or_create_insert.
  set (w1 := if cache_mem _ _ then _ else _).
  assert (Hw1s : usd_stage w1 = Some st).
  { unfold w1. by destruct (cache_mem _ _). }
  assert (Hw1p : ∀ q, GetPrimAtPath w1 q = GetPrimAtPath w q).
  { intros q. unfold w1. by destruct (cache_mem _ _). }
  split.
  - done.
  - rewrite GetPrimAtPath_put_prim by (rewrite Hw1s; eauto). by case_decide.
  - intros q Hq. rewrite GetPrimAtPath_put_prim by (rewrite Hw1s; eauto).
    case_decide; [congruence | apply Hw1p].
  - rewrite orig_colors_put_prim. unfold w1, recorded.
    by destruct (cache_mem _ _).
  - eapply same_config_trans; [|apply same_config_put_prim].
    unfold w1. destruct (cache_mem _ _);
      [apply same_config_refl | apply same_config_with_orig_colors].
Qed.

Lemma put_prim_edits (w : Ext) (p : string) (prim prim' : Prim) :
  GetPrimAtPath w p = Some prim →
  GetPrimAtPath (put_prim w p prim') p = Some prim' ∧
  (∀ q, q ≠ p → GetPrimAtPath (put_prim w p prim') q = GetPrimAtPath w q).
Proof.
  intros Hp. pose proof (GetPrimAtPath_stage _ _ _ Hp) as Hst. split.
  - rewrite GetPrimAtPath_put_prim by done. by case_decide.
  - intros q Hq. rewrite GetPrimAtPath_put_prim by done.
    case_decide; [congruence | done].
Qed.

(** ** One iteration of the pass *)

Lemma loop_body_cases (cp t : float) (mode : Z) (w : Ext) (p : string) :
  final (loop_body cp t mode w p) = w ∨
  ∃ prim prim',
    loop_body cp t mode w p = Returned (final (loop_body cp t mode w p)) ∧
    processed cp t mode prim prim' ∧
    edits w (final (loop_body cp t mode w p)) p prim prim'.
Proof.
  unfold loop_body.
  destruct (GetPrimAtPath w p) as [prim|] eqn:Hp; [|by left].
  destruct (GetAttribute prim rackPowerW) as [attr_p|] eqn:Hap; [|by left].
  destruct (attr_value attr_p) as [raw_p|] eqn:Hvp; [|by left].
  destruct (py_float raw_p) as [power_w|] eqn:Hfp; [|by left].
  destruct (power_w <=? 0)%float eqn:Hpos; [by left|].
  assert (Hheat : heat_load prim = Some power_w).
  { unfold heat_load, read_float. by rewrite Hap, Hvp, Hfp, Hpos. }
  destruct (mode =? 0)%Z eqn:Hmode.
  - apply Z.eqb_eq in Hmode.
    destruct (t <=? 0)%float eqn:Ht; [by left|].
    destruct (py_div power_w (cp * t)) as [m|] eqn:Hdiv; [|by left].
    right. rewrite set_or_create_insert. simpl.
    set (prim1 := <[mdotRequired := _]> prim).
    destruct (put_prim_edits w p prim prim1 Hp) as [H1 H2].
    pose proof (apply_color_edits _ p prim1 t t H1) as He.
    exists prim, (<[displayColor := authored (color_of t t)]> prim1).
    split; [done|]. split; [by eapply processed_design|].
    destruct He as [Ha Hb Hc Hd Hcfg]. split.
    + done.
    + done.
    + intros q Hq. rewrite Hc by done. by apply H2.
    + rewrite Hd, orig_colors_put_prim. unfold prim1.
      by rewrite authored_color_insert_ne.
    + eapply same_config_trans; [apply same_config_put_prim | done].
  - apply Z.eqb_neq in Hmode.
    destruct (GetAttribute prim mdotActual) as [attr_m|] eqn:Ham; [|by left].
    destruct (attr_value attr_m) as [raw_m|] eqn:Hvm; [|by left].
    destruct (py_float raw_m) as [mdot|] eqn:Hfm; [|by left].
    destruct (mdot <=? 0)%float eqn:Hmpos; [by left|].
    destruct (py_div power_w (cp * mdot)) as [d|] eqn:Hdiv; [|by left].
    right. simpl. exists prim, (<[displayColor := authored (color_of d t)]> prim).
    split; [done|]. split.
    + eapply processed_audit; eauto.
      unfold read_float. by rewrite Ham, Hvm, Hfm.
    + by apply apply_color_edits.
Qed.

(** ** The full pass *)

Lemma for_each_invariant (P : Ext → Prop) (body : Ext → string → Outcome)
    (paths : list string) (w : Ext) :
  (∀ w p, P w → P (final (body w p))) →
  P w → P (final (for_each body w paths)).
Proof.
  intros Hstep. revert w. induction paths as [|p rest IH]; intros w Hw; [done|].
  simpl. pose proof (Hstep w p Hw) as Hw'.
  destruct (body w p) as [w'|w']; simpl in *; [by apply IH | done].
Qed.

Lemma heat_load_frame (prim prim' : Prim) :
  prim' !! rackPowerW = prim !! rackPowerW → heat_load prim' = heat_load prim.
Proof. unfold heat_load, read_float, GetAttribute. by intros ->. Qed.

Lemma recorded_keys_mono (c : Cache) (p q : string) (v : option Value) :
  q ∈ keys c → q ∈ keys (recorded c p v).
Proof.
  unfold recorded. destruct (cache_mem c p); [done|].
  rewrite keys_add. intros H. apply elem_of_app. by left.
Qed.

Lemma recorded_keys_self (c : Cache) (p : string) (v : option Value) :
  p ∈ keys (recorded c p v).
Proof.
  unfold recorded. destruct (cache_mem c p) eqn:E.
  - by apply cache_mem_true.
  - rewrite keys_add. apply elem_of_app. right. apply list_elem_of_singleton. done.
Qed.

Lemma recorded_keys_inv (c : Cache) (p q : string) (v : option Value) :
  q ∈ keys (recorded c p v) → q ∈ keys c ∨ (q = p ∧ p ∉ keys c).
Proof.
  unfold recorded. destruct (cache_mem c p) eqn:E; [by left|].
  apply cache_mem_false in E. rewrite keys_add. intros H.
  apply elem_of_app in H as [H|H]; [by left|].
  apply list_elem_of_singleton in H. by right.
Qed.

Lemma recorded_NoDup (c : Cache) (p : string) (v : option Value) :
  NoDup (keys c) → NoDup (keys (recorded c p v)).
Proof.
  unfold recorded. destruct (cache_mem c p) eqn:E; [done|].
  apply cache_mem_false in E. rewrite keys_add. intros Hnd.
  apply NoDup_app. split; [done|]. split.
  - intros x Hx Hp. apply list_elem_of_singleton in Hp. by subst.
  - apply NoDup_singleton.
Qed.

(** First write wins: an entry of the dict is never replaced. *)
Lemma recorded_get_old (c : Cache) (p q : string) (v : option Value) :
  q ∈ keys c → cache_get (recorded c p v) q = cache_get c q.
Proof.
  intros Hq. unfold recorded. destruct (cache_mem c p); [done|].
  rewrite cache_get_add. destruct (cache_get c q) eqn:E; [done|].
  apply cache_get_None in E. contradiction.
Qed.

Lemma recorded_get_new (c : Cache) (p : string) (v : option Value) :
  p ∉ keys c → cache_get (recorded c p v) p = Some v.
Proof.
  intros Hp. unfold recorded.
  apply cache_mem_false in Hp as Hm. rewrite Hm, cache_get_add.
  apply cache_get_None in Hp. rewrite Hp. by case_decide.
Qed.

Lemma processed_display_color cp t mode (prim prim' : Prim) :
  processed cp t mode prim prim' →
  ∃ d, prim' !! displayColor = Some (authored (color_of d t)).
Proof. intros [pw m ? ? ? ?|pw mdot d ? ? ? ? ?]; eexists; apply lookup_insert_eq. Qed.

Lemma processed_frame cp t mode (prim prim' : Prim) (name : string) :
  processed cp t mode prim prim' →
  name ≠ displayColor → (name ≠ mdotRequired ∨ mode ≠ 0%Z) →
  prim' !! name = prim !! name.
Proof.
  intros [pw m ? ? ? ?|pw mdot d ? ? ? ? ?] Hdc Hmr.
  - destruct Hmr as [Hmr|Hmr]; [|done].
    rewrite lookup_insert_ne by done. by rewrite lookup_insert_ne.
  - by rewrite lookup_insert_ne.
Qed.

Lemma processed_heat_load cp t mode (prim prim' : Prim) :
  processed cp t mode prim prim' → is_Some (heat_load prim).
Proof. intros [pw m ? -> ? ?|pw mdot d ? -> ? ? ?]; eauto. Qed.

Lemma pass_inv_start t mode (w0 : Ext) :
  _orig_colors w0 = [] → pass_inv t mode w0 w0.
Proof.
  intros Hc. split.
  - apply same_config_refl.
  - done.
  - done.
  - done.
  - rewrite Hc. apply NoDup_nil_2.
  - done.
  - rewrite Hc. intros q Hq. by apply elem_of_nil in Hq.
Qed.

Lemma pass_inv_step cp t mode (w0 w : Ext) (p : string) :
  pass_inv t mode w0 w → pass_inv t mode w0 (final (loop_body cp t mode w p)).
Proof.
  intros Hinv.
  destruct (loop_body_cases cp t mode w p) as [->|(prim & prim' & _ & Hproc & He)];
    [done|].
  set (w' := final _) in *.
  destruct Hinv as [Hcfg Hex Hfr Hau Hnd Hun Hto].
  destruct He as [Hb Ha Ho Hc Hcfg'].
  split.
  - by eapply same_config_trans.
  - intros q. destruct (decide (q = p)) as [->|Hq].
    + rewrite Ha, <- Hex, Hb. done.
    + by rewrite Ho.
  - intros q name H1 H2. unfold attr_at at 1.
    destruct (decide (q = p)) as [->|Hq].
    + rewrite Ha, (processed_frame _ _ _ _ _ name Hproc) by auto.
      rewrite <- Hfr by done. unfold attr_at. by rewrite Hb.
    + rewrite Ho by done. by apply Hfr.
  - intros Hm q. unfold attr_at at 1.
    destruct (decide (q = p)) as [->|Hq].
    + rewrite Ha, (processed_frame _ _ _ _ _ mdotRequired Hproc) by auto.
      rewrite <- Hau by done. unfold attr_at. by rewrite Hb.
    + rewrite Ho by done. by apply Hau.
  - rewrite Hc. by apply recorded_NoDup.
  - intros q Hq. rewrite Hc in Hq.
    assert (q ≠ p) by (intros ->; apply Hq, recorded_keys_self).
    rewrite Ho by done. apply Hun. intros Hk. apply Hq.
    by apply recorded_keys_mono.
  - intros q Hq. rewrite Hc in Hq |- *.
    destruct (processed_display_color _ _ _ _ _ Hproc) as [d Hd].
    apply recorded_keys_inv in Hq as [Hq|[-> Hq]].
    + destruct (Hto q Hq) as (prim0 & primq & dq & H0 & Hh & Hg & Hw & Hcol).
      rewrite recorded_get_old by done.
      destruct (decide (q = p)) as [->|Hne].
      * exists prim0, prim', d. by rewrite Ha.
      * exists prim0, primq, dq. by rewrite Ho.
    + exists prim, prim', d. rewrite recorded_get_new by done.
      rewrite <- (Hun p Hq), Hb. repeat split; try done.
      by eapply processed_heat_load.
Qed.

(** The full pass of [_recompute_and_color], from a loaded stage with the
    override enabled. *)
Lemma full_pass_inv (w : Ext) (st : Stage) :
  usd_stage w = Some st →
  _color_override_enabled_model w = true →
  pass_inv (_target_dt_model w) (_mode_model w)
    (with_orig_colors w []) (final (_recompute_and_color w)).
Proof.
  intros Hst Hen. unfold _recompute_and_color, _get_stage.
  rewrite Hst, Hen. simpl.
  apply (for_each_invariant
           (pass_inv (_target_dt_model w) (_mode_model w) (with_orig_colors w []))).
  - intros w1 p. apply pass_inv_step.
  - by apply pass_inv_start.
Qed.

Lemma heat_load_absent_None (prim : Prim) :
  heat_load_absent prim → heat_load prim = None.
Proof.
  unfold heat_load, read_float.
  intros [H|a H Ha|a raw H Ha Hr|a raw pw H Ha Hr Hle]; rewrite H; try done.
  - unfold HasAuthoredValue in Ha. by destruct (attr_value a).
  - by rewrite Ha, Hr.
  - by rewrite Ha, Hr, Hle.
Qed.

Lemma heat_load_None_skips cp t mode (w : Ext) (p : string) (prim : Prim) :
  GetPrimAtPath w p = Some prim → heat_load prim = None →
  loop_body cp t mode w p = Returned w.
Proof.
  unfold heat_load, read_float, loop_body. intros -> H.
  destruct (GetAttribute prim rackPowerW) as [a|]; [|done].
  destruct (attr_value a) as [raw|]; [|done].
  destruct (py_float raw) as [pw|]; [|done].
  by destruct (pw <=? 0)%float.
Qed.

(** ** The restore pass *)

Lemma restore_one_prim (w : Ext) (p q : string) (orig : option Value) :
  GetPrimAtPath (restore_one w (p, orig)) q =
    if decide (p = q) then restore_prim orig <$> GetPrimAtPath w p
    else GetPrimAtPath w q.
Proof.
  unfold restore_one.
  destruct (GetPrimAtPath w p) as [prim|] eqn:Hp.
  - pose proof (GetPrimAtPath_stage _ _ _ Hp) as Hst.
    destruct orig as [v|]; simpl.
    + rewrite set_or_create_insert. by apply GetPrimAtPath_put_prim.
    + unfold GetAttribute, RemoveProperty.
      destruct (prim !! displayColor) eqn:Hc.
      * by apply GetPrimAtPath_put_prim.
      * rewrite delete_id by done. case_decide; congruence.
  - case_decide; [by subst | done].
Qed.

Lemma restore_one_rest (w : Ext) (e : string * option Value) :
  _orig_colors (restore_one w e) = _orig_colors w ∧
  same_config w (restore_one w e) ∧
  (is_Some (usd_stage w) → is_Some (usd_stage (restore_one w e))).
Proof.
  destruct e as [p orig]. unfold restore_one.
  assert (Hput : ∀ x, _orig_colors (put_prim w p x) = _orig_colors w ∧
            same_config w (put_prim w p x) ∧
            (is_Some (usd_stage w) → is_Some (usd_stage (put_prim w p x)))).
  { intros x. split; [apply orig_colors_put_prim|].
    split; [apply same_config_put_prim|].
    intros [st Hst]. unfold put_prim. rewrite Hst. simpl. eauto. }
  destruct (GetPrimAtPath w p) as [prim|];
    [|by split; [|split; [apply same_config_refl|]]].
  destruct orig as [v|]; [apply Hput|].
  destruct (GetAttribute prim displayColor); [apply Hput|].
  by split; [|split; [apply same_config_refl|]].
Qed.

Lemma restore_fold_rest (c : Cache) (w : Ext) :
  _orig_colors (fold_left restore_one c w) = _orig_colors w ∧
  same_config w (fold_left restore_one c w) ∧
  (is_Some (usd_stage w) → is_Some (usd_stage (fold_left restore_one c w))).
Proof.
  revert w. induction c as [|e c IH]; intros w; cbn [fold_left].
  - by split; [|split; [apply same_config_refl|]].
  - destruct (IH (restore_one w e)) as (H1 & H2 & H3).
    destruct (restore_one_rest w e) as (G1 & G2 & G3).
    split; [congruence|]. split; [by eapply same_config_trans | auto].
Qed.



Lemma restore_prim_frame (orig : option Value) (prim : Prim) (name : string) :
  name ≠ displayColor → restore_prim orig prim !! name = prim !! name.
Proof.
  intros Hne. destruct orig; simpl.
  - by rewrite lookup_insert_ne.
  - by rewrite lookup_delete_ne.
Qed.

Lemma restore_one_frame (w : Ext) (e : string * option Value) (q name : string) :
  name ≠ displayColor →
  attr_at (restore_one w e) q name = attr_at w q name ∧
  (is_Some (GetPrimAtPath (restore_one w e) q) ↔ is_Some (GetPrimAtPath w q)).
Proof.
  intros Hne. destruct e as [p orig]. unfold attr_at.
  rewrite restore_one_prim. case_decide; [subst|done].
  destruct (GetPrimAtPath w q) as [prim|]; simpl; [|done].
  rewrite restore_prim_frame by done. split; [done|]. split; eauto.
Qed.

Lemma restore_fold_frame (c : Cache) (w : Ext) (q name : string) :
  name ≠ displayColor →
  attr_at (fold_left restore_one c w) q name = attr_at w q name ∧
  (is_Some (GetPrimAtPath (fold_left restore_one c w) q) ↔
     is_Some (GetPrimAtPath w q)).
Proof.
  intros Hne. revert w. induction c as [|e c IH]; intros w; [done|].
  cbn [fold_left]. destruct (IH (restore_one w e)) as [H1 H2].
  destruct (restore_one_frame w e q name Hne) as [G1 G2].
  split; [congruence | by rewrite H2].
Qed.



(** ** Comparisons of binary64 numbers *)

Lemma Prim2SF_zero : Prim2SF 0 = S754_zero false.
Proof. reflexivity. Qed.


Lemma float_ltb_irrefl (x : float) : (x <? x)%float = false.
Proof.
  rewrite ltb_spec. unfold SFltb, SFcompare.
  destruct (Prim2SF x) as [s|s| |s m e]; [done | by destruct s | done |].
  destruct s; rewrite Z.compare_refl, Pos.compare_cont_refl; done.
Qed.

(** A target that is [> 0] is not [<= 0]. *)
Lemma float_positive_not_leb (t : float) :
  (0 <? t)%float = true → (t <=? 0)%float = false.
Proof.
  rewrite ltb_spec, leb_spec, Prim2SF_zero. unfold SFltb, SFleb, SFcompare.
  destruct (Prim2SF t) as [s|s| |s m e]; [done | by destruct s | done | by destruct s].
Qed.


(** With a target [> 0] the class is one of the three bands, and which one
    is decided by the two comparisons of the source. *)
Lemma classify_positive_target (d t : float) :
  (0 <? t)%float = true →
  classify d t ≠ Neutral ∧
  (classify d t = Under ↔ (d <? t - tol)%float = true) ∧
  (classify d t = Match ↔
     (d <? t - tol)%float = false ∧ (abs (d - t) <=? tol)%float = true) ∧
  (classify d t = Over ↔
     (d <? t - tol)%float = false ∧ (abs (d - t) <=? tol)%float = false).
Proof.
  intros H. unfold classify. rewrite (float_positive_not_leb _ H).
  destruct (d <? t - tol)%float, (abs (d - t) <=? tol)%float;
    intuition congruence.
Qed.

(** At [d = t - tol] the first comparison fails, so the class is never
    [Under]; whether it is [Match] is up to the rounding of [d - t]. *)
Lemma classify_boundary_not_under (t : float) :
  (0 <? t)%float = true →
  classify (t - tol) t = Match ∨ classify (t - tol) t = Over.
Proof.
  intros H. unfold classify.
  rewrite (float_positive_not_leb _ H), float_ltb_irrefl.
  destruct (abs _ <=? tol)%float; auto.
Qed.

Lemma blue_is_not_red : blue ≠ red.
Proof.
  intros H.
  apply (f_equal (λ v, match v with
                       | VColor3fArray (c :: _) => (vec_r c <? 1)%float
                       | _ => false
                       end)) in H.
  vm_compute in H. discriminate.
Qed.


(** ** Rounding of binary64 numbers

    What the classification of the target against itself needs of
    [SpecFloat]'s rounding: a positive value below a float of the format
    does not round above it. *)

Section Rounding.
Local Open Scope Z_scope.

Lemma fexp64 (x : Z) : fexp prec emax x = Z.max (x - 53) (-1074).
Proof. reflexivity. Qed.

Lemma digits2_pos_bounds (m : positive) :
  2 ^ (Zpos (digits2_pos m) - 1) ≤ Zpos m < 2 ^ Zpos (digits2_pos m).
Proof.
  induction m as [m IH|m IH|]; simpl digits2_pos; [| |simpl; lia].
  - rewrite Pos2Z.inj_succ. change (Zpos m~1) with (2 * Zpos m + 1).
    replace (Z.succ (Zpos (digits2_pos m)) - 1) with (Z.succ (Zpos (digits2_pos m) - 1)) by lia.
    rewrite !Z.pow_succ_r by lia.
    generalize dependent (2 ^ (Zpos (digits2_pos m) - 1)).
    generalize (2 ^ Zpos (digits2_pos m)). lia.
  - rewrite Pos2Z.inj_succ. change (Zpos m~0) with (2 * Zpos m).
    replace (Z.succ (Zpos (digits2_pos m)) - 1) with (Z.succ (Zpos (digits2_pos m) - 1)) by lia.
    rewrite !Z.pow_succ_r by lia.
    generalize dependent (2 ^ (Zpos (digits2_pos m) - 1)).
    generalize (2 ^ Zpos (digits2_pos m)). lia.
Qed.

Lemma digits2_pos_scaled_le (a b : positive) (k : Z) :
  0 ≤ k → Zpos a ≤ Zpos b * 2 ^ k →
  Zpos (digits2_pos a) ≤ Zpos (digits2_pos b) + k.
Proof.
  intros Hk Hab.
  pose proof (digits2_pos_bounds a) as [Ha _].
  pose proof (digits2_pos_bounds b) as [_ Hb].
  assert (H : 2 ^ (Zpos (digits2_pos a) - 1) < 2 ^ (Zpos (digits2_pos b) + k)).
  { rewrite Z.pow_add_r by lia.
    eapply Z.le_lt_trans; [exact Ha|]. eapply Z.le_lt_trans; [exact Hab|].
    apply Z.mul_lt_mono_pos_r; [apply Z.pow_pos_nonneg; lia | done]. }
  apply Z.pow_lt_mono_r_iff in H; lia.
Qed.

Lemma iter_xO_pow (m d : positive) :
  Zpos (Pos.iter xO m d) = Zpos m * 2 ^ Zpos d.
Proof.
  induction d as [|d IH] using Pos.peano_ind.
  - simpl. lia.
  - rewrite Pos.iter_succ, Pos2Z.inj_succ, Z.pow_succ_r by lia.
    change (Zpos (Pos.iter xO m d)~0) with (2 * Zpos (Pos.iter xO m d)).
    rewrite IH. lia.
Qed.

Lemma shl_align_spec (mx : positive) (ex ex' : Z) :
  snd (shl_align mx ex ex') = Z.min ex ex' ∧
  Zpos (fst (shl_align mx ex ex')) = Zpos mx * 2 ^ (ex - Z.min ex ex').
Proof.
  unfold shl_align. destruct (ex' - ex) as [|d|d] eqn:Hd; simpl.
  - replace (ex - Z.min ex ex') with 0 by lia. lia.
  - replace (ex - Z.min ex ex') with 0 by lia. lia.
  - rewrite iter_xO_pow. replace (ex - Z.min ex ex') with (Zpos d) by lia. lia.
Qed.

Lemma shr_1_div2 (r : shr_record) :
  0 ≤ shr_m r → shr_m (shr_1 r) = shr_m r / 2.
Proof.
  intros H. rewrite <- Z.div2_div.
  destruct r as [[|[p|p|]|p] r s]; simpl in *; (reflexivity || lia).
Qed.

Lemma iter_shr_1 (n : positive) (r : shr_record) :
  0 ≤ shr_m r →
  shr_m (SpecFloat.iter_pos shr_1 n r) = shr_m r / 2 ^ Zpos n.
Proof.
  revert r. induction n as [n IH|n IH|]; intros r Hr; simpl SpecFloat.iter_pos.
  - assert (H1 : 0 ≤ shr_m (shr_1 r)).
    { rewrite shr_1_div2 by done. apply Z.div_pos; lia. }
    assert (H2 : 0 ≤ shr_m (SpecFloat.iter_pos shr_1 n (shr_1 r))).
    { rewrite IH by done. apply Z.div_pos; [done | apply Z.pow_pos_nonneg; lia]. }
    rewrite IH, IH by done. rewrite shr_1_div2 by done.
    rewrite !Z.div_div by (try apply Z.pow_pos_nonneg; lia).
    f_equal. replace (Zpos n~1) with (Zpos n + Zpos n + 1) by lia.
    rewrite !Z.pow_add_r by lia. lia.
  - assert (H2 : 0 ≤ shr_m (SpecFloat.iter_pos shr_1 n r)).
    { rewrite IH by done. apply Z.div_pos; [done | apply Z.pow_pos_nonneg; lia]. }
    rewrite IH, IH by done.
    rewrite !Z.div_div by (try apply Z.pow_pos_nonneg; lia).
    f_equal. replace (Zpos n~0) with (Zpos n + Zpos n) by lia.
    rewrite !Z.pow_add_r by lia. lia.
  - by rewrite shr_1_div2.
Qed.

Lemma shr_exact_spec (mant e n : Z) :
  0 ≤ mant →
  shr_m (fst (shr (shr_record_of_loc mant loc_Exact) e n)) = mant / 2 ^ Z.max n 0 ∧
  snd (shr (shr_record_of_loc mant loc_Exact) e n) = e + Z.max n 0.
Proof.
  intros Hm. unfold shr. destruct n as [|p|p]; simpl fst; simpl snd.
  - simpl. rewrite Z.div_1_r. lia.
  - rewrite iter_shr_1 by done. simpl shr_m. split; [done | lia].
  - simpl. rewrite Z.div_1_r. lia.
Qed.

Lemma round_nearest_even_bounds (q : Z) (l : location) :
  0 ≤ q → 0 ≤ round_nearest_even q l ≤ q + 1.
Proof.
  intros Hq. destruct l as [|[]]; simpl; try lia. destruct (Z.even q); lia.
Qed.

Lemma fexp64_mono (x y : Z) : x ≤ y → fexp prec emax x ≤ fexp prec emax y.
Proof. rewrite !fexp64. lia. Qed.

Lemma bounded_inv (m : positive) (e : Z) :
  bounded prec emax m e = true →
  fexp prec emax (Zpos (digits2_pos m) + e) = e ∧ e ≤ 971.
Proof.
  unfold bounded, canonical_mantissa. intros H.
  apply andb_true_iff in H as [H1 H2].
  apply Z.eqb_eq in H1. apply Z.leb_le in H2. split; [done|].
  change (emax - prec) with 971 in H2. done.
Qed.

Lemma SFltb_finite_below (m m' : positive) (e e' : Z) :
  e' < e ∨ (e' = e ∧ Zpos m' ≤ Zpos m) →
  SFltb (S754_finite false m e) (S754_finite false m' e') = false.
Proof.
  intros H. unfold SFltb, SFcompare.
  destruct (Z.compare_spec e e') as [Heq|Hlt|Hgt]; [|lia|done].
  destruct H as [H|[_ H]]; [lia|].
  change (Pos.compare_cont Eq m m') with (m ?= m')%positive.
  destruct (Pos.compare_spec m m') as [?|?|?]; [done|lia|done].
Qed.

(** Rounding to nearest is monotone at a number of the format: a
    positive value below the float [(m, e)] does not round above it. *)
Lemma binary_round_aux_below (mz : positive) (ez : Z) (m : positive) (e : Z) :
  bounded prec emax m e = true →
  ez ≤ e →
  Zpos mz < Zpos m * 2 ^ (e - ez) →
  SFltb (S754_finite false m e)
    (binary_round_aux prec emax false (Zpos mz) ez loc_Exact) = false.
Proof.
  intros Hb Hez Hlt. apply bounded_inv in Hb as [Hcan He].
  unfold binary_round_aux, shr_fexp.
  set (E := fexp prec emax (Zdigits2 (Zpos mz) + ez)).
  assert (HE : E ≤ e).
  { rewrite <- Hcan. apply fexp64_mono. simpl Zdigits2.
    pose proof (digits2_pos_scaled_le mz m (e - ez)). lia. }
  destruct (shr_exact_spec (Zpos mz) ez (E - ez)) as [Hq He1]; [lia|].
  destruct (shr (shr_record_of_loc (Zpos mz) loc_Exact) ez (E - ez))
    as [mrs1 e1]. simpl in Hq, He1.
  set (n := Z.max (E - ez) 0) in *.
  assert (He1e : e1 ≤ e) by lia.
  assert (Hqn : 0 ≤ shr_m mrs1).
  { rewrite Hq. apply Z.div_pos; [lia | apply Z.pow_pos_nonneg; lia]. }
  assert (HqM : shr_m mrs1 < Zpos m * 2 ^ (e - e1)).
  { rewrite Hq. apply Z.div_lt_upper_bound; [apply Z.pow_pos_nonneg; lia|].
    replace (2 ^ n * (Zpos m * 2 ^ (e - e1))) with (Zpos m * 2 ^ (e - ez)); [done|].
    replace (e - ez) with (n + (e - e1)) by lia.
    rewrite Z.pow_add_r by lia. lia. }
  pose proof (round_nearest_even_bounds (shr_m mrs1) (loc_of_shr_record mrs1) Hqn)
    as Hr.
  set (r := round_nearest_even (shr_m mrs1) (loc_of_shr_record mrs1)) in *.
  assert (HrM : r ≤ Zpos m * 2 ^ (e - e1)) by lia.
  set (E2 := fexp prec emax (Zdigits2 r + e1)).
  destruct (shr_exact_spec r e1 (E2 - e1)) as [Hq2 He2]; [lia|].
  destruct (shr (shr_record_of_loc r loc_Exact) e1 (E2 - e1)) as [mrs2 e2].
  simpl in Hq2, He2.
  destruct (shr_m mrs2) as [|m2|m2] eqn:Hm2; [done| |done].
  assert (Hrpos : 0 < r).
  { destruct (Z.eq_dec r 0) as [H0|H0]; [|lia].
    rewrite H0, Z.div_0_l in Hq2; [lia|].
    apply Z.pow_nonzero; lia. }
  assert (HE2 : E2 ≤ e).
  { rewrite <- Hcan. apply fexp64_mono. unfold E2.
    destruct r as [|pr|pr]; [lia| |lia]. simpl Zdigits2.
    pose proof (digits2_pos_scaled_le pr m (e - e1)). lia. }
  assert (He2e : e2 ≤ e) by lia.
  replace (e2 <=? emax - prec) with true
    by (symmetry; apply Z.leb_le; change (emax - prec) with 971; lia).
  apply SFltb_finite_below.
  destruct (Z.eq_dec e2 e) as [Heq|Hne]; [right|left; lia].
  split; [done|]. rewrite Hq2.
  replace (Z.max (E2 - e1) 0) with (e - e1) by lia.
  transitivity (Zpos m * 2 ^ (e - e1) / 2 ^ (e - e1)).
  - apply Z.div_le_mono; [apply Z.pow_pos_nonneg; lia | done].
  - rewrite Z.div_mul; [lia|]. apply Z.pow_nonzero; lia.
Qed.

Lemma binary_round_below (d : positive) (ez : Z) (m : positive) (e : Z) :
  bounded prec emax m e = true →
  ez ≤ e →
  Zpos d < Zpos m * 2 ^ (e - ez) →
  SFltb (S754_finite false m e) (binary_round prec emax false d ez) = false.
Proof.
  intros Hb Hez Hlt. unfold binary_round.
  destruct (shl_align_spec d ez (fexp prec emax (Zpos (digits2_pos d) + ez)))
    as [H1 H2].
  destruct (shl_align d ez _) as [mz ez']. simpl in H1, H2.
  apply binary_round_aux_below; [done | lia |].
  rewrite H2, H1.
  set (k := ez - Z.min ez _) in *.
  replace (e - Z.min ez _) with ((e - ez) + k) by (unfold k; lia).
  rewrite Z.pow_add_r by (unfold k; lia). rewrite Z.mul_assoc.
  apply Z.mul_lt_mono_pos_r; [apply Z.pow_pos_nonneg; unfold k; lia | done].
Qed.

Lemma binary_round_aux_negative (mx ex : Z) (lx : location) :
  match binary_round_aux prec emax true mx ex lx with
  | S754_zero s | S754_infinity s | S754_finite s _ _ => s = true
  | S754_nan => True
  end.
Proof.
  unfold binary_round_aux.
  destruct (shr_fexp prec emax mx ex lx) as [mrs1 e1].
  destruct (shr_fexp prec emax _ e1 loc_Exact) as [mrs2 e2].
  destruct (shr_m mrs2); [done | by destruct (_ <=? _) | done].
Qed.

(** Subtracting a positive number from a positive float never gives
    more than the float. *)
Lemma SFsub_below (m : positive) (e : Z) (my : positive) (ey : Z) :
  bounded prec emax m e = true →
  SFltb (S754_finite false m e)
    (SFsub prec emax (S754_finite false m e) (S754_finite false my ey)) = false.
Proof.
  intros Hb. unfold SFsub.
  destruct (shl_align_spec m e (Z.min e ey)) as [_ H1].
  destruct (shl_align_spec my ey (Z.min e ey)) as [_ H2].
  replace (Z.min e (Z.min e ey)) with (Z.min e ey) in H1 by lia.
  set (ez := Z.min e ey) in *. unfold cond_Zopp.
  destruct (Zpos (fst (shl_align m e ez)) - Zpos (fst (shl_align my ey ez)))
    as [|d|d] eqn:HD; unfold binary_normalize.
  - done.
  - apply binary_round_below; [done | lia | lia].
  - unfold binary_round. destruct (shl_align d ez _) as [mz ez'].
    pose proof (binary_round_aux_negative (Zpos mz) ez' loc_Exact) as Hs.
    destruct (binary_round_aux prec emax true (Zpos mz) ez' loc_Exact)
      as [s|s| |s m' e']; [by subst | by subst | done | by subst].
Qed.


End Rounding.

Lemma Prim2SF_tol : Prim2SF tol = S754_finite false 4611686018427388 (-62).
Proof. reflexivity. Qed.

Lemma finite_positive_inv (t : float) :
  (t <=? 0)%float = false → is_finite t = true →
  ∃ m e, Prim2SF t = S754_finite false m e ∧ bounded prec emax m e = true.
Proof.
  intros Hle Hfin. pose proof (Prim2SF_valid t) as Hv.
  unfold is_finite, is_nan, is_infinity in Hfin.
  rewrite !FloatAxioms.eqb_spec, abs_spec in Hfin. rewrite leb_spec in Hle.
  change (Prim2SF 0) with (S754_zero false) in Hle.
  change (Prim2SF infinity) with (S754_infinity false) in Hfin.
  destruct (Prim2SF t) as [s|s| |s m e].
  - by destruct s.
  - by destruct s.
  - done.
  - destruct s; [done|]. eauto.
Qed.


(** ** One iteration, mode by mode *)

Lemma heat_load_positive (prim : Prim) (power_w : float) :
  read_float prim rackPowerW = Some power_w → (0 <? power_w)%float = true →
  heat_load prim = Some power_w.
Proof.
  intros Hr Hpos. unfold heat_load.
  by rewrite Hr, (float_positive_not_leb _ Hpos).
Qed.

Lemma flow_absent_None (prim : Prim) :
  flow_absent prim → actual_flow prim = None.
Proof.
  unfold actual_flow, read_float.
  intros [H|a H Ha|a raw H Ha Hr|a raw pw H Ha Hr Hle]; rewrite H; try done.
  - unfold HasAuthoredValue in Ha. by destruct (attr_value a).
  - by rewrite Ha, Hr.
  - by rewrite Ha, Hr, Hle.
Qed.

Lemma loop_body_design cp t (w : Ext) (p : string) (prim : Prim) (power_w : float) :
  GetPrimAtPath w p = Some prim → heat_load prim = Some power_w →
  loop_body cp t 0 w p =
    if (t <=? 0)%float then Returned w
    else match py_div power_w (cp * t)%float with
         | None => Raised w
         | Some m =>
           Returned
             (_apply_color_for_prim
                (put_prim w p (<[mdotRequired := authored (VDouble m)]> prim))
                p t t)
         end.
Proof.
  unfold heat_load, read_float, loop_body. intros -> H.
  destruct (GetAttribute prim rackPowerW) as [a|]; [|done].
  destruct (attr_value a) as [raw|]; [|done].
  destruct (py_float raw) as [pw|]; [|done].
  destruct (pw <=? 0)%float; [done|]. injection H as ->. simpl.
  destruct (t <=? 0)%float; [done|].
  destruct (py_div power_w (cp * t)); [|done].
  by rewrite set_or_create_insert.
Qed.

Lemma loop_body_audit cp t mode (w : Ext) (p : string) (prim : Prim)
    (power_w : float) :
  mode ≠ 0%Z →
  GetPrimAtPath w p = Some prim → heat_load prim = Some power_w →
  loop_body cp t mode w p =
    match actual_flow prim with
    | None => Returned w
    | Some mdot =>
      match py_div power_w (cp * mdot)%float with
      | None => Raised w
      | Some delta_t => Returned (_apply_color_for_prim w p delta_t t)
      end
    end.
Proof.
  unfold heat_load, actual_flow, read_float, loop_body. intros Hm -> H.
  destruct (GetAttribute prim rackPowerW) as [a|]; [|done].
  destruct (attr_value a) as [raw|]; [|done].
  destruct (py_float raw) as [pw|]; [|done].
  destruct (pw <=? 0)%float; [done|]. injection H as ->.
  apply Z.eqb_neq in Hm. rewrite Hm.
  destruct (GetAttribute prim mdotActual) as [am|]; [|done].
  destruct (attr_value am) as [rawm|]; [|done].
  destruct (py_float rawm) as [mdot|]; [|done].
  by destruct (mdot <=? 0)%float.
Qed.

Lemma py_div_nonzero (x y : float) :
  (y =? 0)%float = false → py_div x y = Some (x / y)%float.
Proof. intros H. unfold py_div. by rewrite H. Qed.

Lemma design_write_edits (w : Ext) (p : string) (prim : Prim) (m t : float) :
  GetPrimAtPath w p = Some prim →
  edits w
    (_apply_color_for_prim
       (put_prim w p (<[mdotRequired := authored (VDouble m)]> prim)) p t t)
    p prim
    (<[displayColor := authored (color_of t t)]>
       (<[mdotRequired := authored (VDouble m)]> prim)).
Proof.
  intros Hp. set (prim1 := <[mdotRequired := _]> prim).
  destruct (put_prim_edits w p prim prim1 Hp) as [H1 H2].
  destruct (apply_color_edits _ p prim1 t t H1) as [Ha Hb Hc Hd Hcfg].
  split.
  - done.
  - done.
  - intros q Hq. rewrite Hc by done. by apply H2.
  - rewrite Hd, orig_colors_put_prim. unfold prim1.
    by rewrite authored_color_insert_ne.
  - eapply same_config_trans; [apply same_config_put_prim | done].
Qed.

(** The division of the audit mode is not guarded against underflow: an
    authored actual flow that is positive and tiny makes [cp * mdot] zero,
    the division raises [ZeroDivisionError], the exception escapes the
    pass, and the rack is neither classified nor coloured. *)
Lemma audit_tiny_flow_raises :
  read_float (rack 1000 tiny) mdotActual = Some tiny ∧
  (0 <? tiny)%float = true ∧
  (py_max (_cp_model underflow_world) 1e-6 * tiny = 0)%float ∧
  _recompute_and_color underflow_world = Raised underflow_world ∧
  color_at (final (_recompute_and_color underflow_world)) "/World/Rack" = Some blue.
Proof. repeat split; vm_compute; reflexivity. Qed.

(** * The claims *)

(** C1: at the lower edge of the band the class can be [Over]: with a
    target of 1 the temperature rise [1 - 0.001] is not below
    [target - tol], and [|0.999 - 1|] rounds to a number above [tol]; the
    full pass colours such a rack red. *)
Theorem boundary_is_classified_over :
  (0 <? 1)%float = true ∧
  (0.999 / (1 * 1) = 1 - tol)%float ∧
  classify (1 - tol) 1 = Over ∧
  _recompute_and_color boundary_world =
    Returned (_apply_color_for_prim boundary_world "/World/Rack" (1 - tol) 1) ∧
  color_at (final (_recompute_and_color boundary_world)) "/World/Rack" = Some red.
Proof. repeat split; vm_compute; reflexivity. Qed.




Lemma nan_flow_is_processed :
  read_float (rack 1000 nan) mdotActual = Some nan ∧
  (0 <? nan)%float = false ∧
  _recompute_and_color nan_flow_world =
    Returned (_apply_color_for_prim nan_flow_world "/World/Rack"
                (1000 / (1005 * nan)) 10) ∧
  "/World/Rack" ∈ keys (_orig_colors (final (_recompute_and_color nan_flow_world))) ∧
  color_at (final (_recompute_and_color nan_flow_world)) "/World/Rack" = Some red.
Proof.
  split; [vm_compute; reflexivity|]. split; [vm_compute; reflexivity|].
  split; [vm_compute; reflexivity|]. split; [|vm_compute; reflexivity].
  apply (bool_decide_unpack _). vm_compute. reflexivity.
Qed.


(** C3, amended: in the audit mode, for a prim with a heat load [> 0]:
    when the actual flow is missing, unauthored, unparsable or [<= 0] the
    iteration returns with the world unchanged; otherwise (a NaN flow
    included), when [cp * mdot] is not zero, the temperature rise is
    [power_w / (cp * mdot)], the original colour is recorded unless it is
    recorded already, and the display colour is set to the class of that
    rise against the target, no other attribute being written. *)
Theorem audit_step cp t mode (w : Ext) (p : string) (prim : Prim) (power_w : float) :
  mode ≠ 0%Z →
  GetPrimAtPath w p = Some prim →
  read_float prim rackPowerW = Some power_w →
  (0 <? power_w)%float = true →
  (flow_absent prim → loop_body cp t mode w p = Returned w) ∧
  (∀ mdot,
     read_float prim mdotActual = Some mdot → (mdot <=? 0)%float = false →
     (cp * mdot =? 0)%float = false →
     ∃ w',
       loop_body cp t mode w p = Returned w' ∧
       edits w w' p prim
         (<[displayColor :=
              authored (color_of (power_w / (cp * mdot)) t)]> prim)).
Proof.
  intros Hm Hp Hr Hpos.
  pose proof (heat_load_positive _ _ Hr Hpos) as Hh.
  rewrite (loop_body_audit cp t mode w p prim power_w Hm Hp Hh).
  split.
  - intros Habs. by rewrite (flow_absent_None _ Habs).
  - intros mdot Hrm Hle Hnz. unfold actual_flow.
    rewrite Hrm, Hle, (py_div_nonzero _ _ Hnz).
    eexists. split; [done|]. by apply apply_color_edits.
Qed.

Lemma audit_step_witness :
  (flow_absent (rack 1000 0.05) →
   loop_body 1005 10 1 sample_world "/World/Rack" = Returned sample_world) ∧
  (∀ mdot,
     read_float (rack 1000 0.05) mdotActual = Some mdot →
     (mdot <=? 0)%float = false →
     (1005 * mdot =? 0)%float = false →
     ∃ w',
       loop_body 1005 10 1 sample_world "/World/Rack" = Returned w' ∧
       edits sample_world w' "/World/Rack" (rack 1000 0.05)
         (<[displayColor :=
              authored (color_of (1000 / (1005 * mdot)) 10)]> (rack 1000 0.05))).
Proof.
  apply (audit_step 1005 10 1 sample_world "/World/Rack" (rack 1000 0.05) 1000);
    [discriminate | vm_compute; reflexivity..].
Defined.

(** C4: in a full pass a prim whose heat load is missing, unauthored,
    unparsable or [<= 0] is skipped: its iteration returns normally with
    the world unchanged, so the pass goes on, and when the pass ends the
    prim is as it was and is no key of the dict of original colours. *)
Theorem heat_load_absent_entity_is_skipped
    (w : Ext) (st : Stage) (p : string) (prim : Prim) :
  _get_stage w = Some st →
  _color_override_enabled_model w = true →
  prims st !! p = Some prim →
  heat_load_absent prim →
  let w' := final (_recompute_and_color w) in
  (∀ cp t mode w1, GetPrimAtPath w1 p = Some prim →
     loop_body cp t mode w1 p = Returned w1) ∧
  GetPrimAtPath w' p = Some prim ∧
  p ∉ keys (_orig_colors w').
Proof.
  intros Hst Hen Hp Habs. cbv zeta.
  apply heat_load_absent_None in Habs.
  split; [intros; by eapply heat_load_None_skips|].
  destruct (full_pass_inv w st Hst Hen) as [_ _ _ _ _ Hun Hto].
  assert (Hw : GetPrimAtPath (with_orig_colors w []) p = Some prim).
  { unfold GetPrimAtPath. simpl. unfold _get_stage in Hst. by rewrite Hst. }
  assert (Hk : p ∉ keys (_orig_colors (final (_recompute_and_color w)))).
  { intros Hk. destruct (Hto p Hk) as (prim0 & ? & ? & H0 & [x Hx] & _).
    rewrite Hw in H0. injection H0 as <-. congruence. }
  split; [|done]. by rewrite Hun.
Qed.

Lemma heat_load_absent_entity_is_skipped_witness :
  let w' := final (_recompute_and_color sample_world) in
  (∀ cp t mode w1, GetPrimAtPath w1 "/World/Floor" = Some floor →
     loop_body cp t mode w1 "/World/Floor" = Returned w1) ∧
  GetPrimAtPath w' "/World/Floor" = Some floor ∧
  "/World/Floor" ∉ keys (_orig_colors w').
Proof.
  apply (heat_load_absent_entity_is_skipped sample_world sample_stage).
  - reflexivity.
  - reflexivity.
  - vm_compute. reflexivity.
  - apply heat_missing. vm_compute. reflexivity.
Defined.



(** C6: a second full pass in the same enabled session (the user presses
    the recompute button again) empties the dict and records the colour
    it finds, which is the override of the first pass: the cached
    original of the rack goes from blue to red, and disabling the
    override then leaves the rack red. *)
Theorem second_pass_caches_override_color :
  let w1 := final (_recompute_and_color sample_world) in
  let w2 := final (_recompute_and_color w1) in
  let w3 := final (_recompute_and_color (with_enabled w2 false)) in
  color_at sample_world "/World/Rack" = Some blue ∧
  cache_get (_orig_colors w1) "/World/Rack" = Some (Some blue) ∧
  color_at w1 "/World/Rack" = Some red ∧
  cache_get (_orig_colors w2) "/World/Rack" = Some (Some red) ∧
  color_at w3 "/World/Rack" = Some red ∧
  blue ≠ red.
Proof.
  cbv zeta. split; [|split; [|split; [|split; [|split]]]];
    try (vm_compute; reflexivity).
  apply blue_is_not_red.
Qed.





(** C9: whatever the world, [_recompute_and_color] leaves every attribute
    other than the required flow and the display colour as it was, on
    every prim, the heat load and the actual flow among them; outside the
    design mode it leaves the required flow as it was too; and it neither
    adds nor removes a prim. *)
Theorem recompute_writes_only_managed_attributes (w : Ext) (p name : string) :
  let w' := final (_recompute_and_color w) in
  (name ≠ mdotRequired → name ≠ displayColor →
     attr_at w' p name = attr_at w p name) ∧
  (_mode_model w ≠ 0%Z → attr_at w' p mdotRequired = attr_at w p mdotRequired) ∧
  attr_at w' p rackPowerW = attr_at w p rackPowerW ∧
  attr_at w' p mdotActual = attr_at w p mdotActual ∧
  (is_Some (GetPrimAtPath w' p) ↔ is_Some (GetPrimAtPath w p)).
Proof.
  cbv zeta.
  assert (Hgen : (∀ n, n ≠ mdotRequired → n ≠ displayColor →
              attr_at (final (_recompute_and_color w)) p n = attr_at w p n) ∧
            (_mode_model w ≠ 0%Z →
              attr_at (final (_recompute_and_color w)) p mdotRequired =
                attr_at w p mdotRequired) ∧
            (is_Some (GetPrimAtPath (final (_recompute_and_color w)) p) ↔
               is_Some (GetPrimAtPath w p))).
  { destruct (usd_stage w) as [st|] eqn:Hst.
    - destruct (_color_override_enabled_model w) eqn:Hen.
      + destruct (full_pass_inv w st Hst Hen) as [_ Hex Hfr Hau _ _ _].
        split; [|split].
        * intros n H1 H2. by rewrite Hfr.
        * intros Hm. by rewrite Hau.
        * apply Hex.
      + unfold _recompute_and_color, _restore_colors, _get_stage.
        rewrite Hst, Hen. simpl.
        split; [|split].
        * intros n H1 H2. unfold attr_at at 1.
          rewrite GetPrimAtPath_with_orig_colors.
          by apply restore_fold_frame.
        * intros _. unfold attr_at at 1.
          rewrite GetPrimAtPath_with_orig_colors.
          by apply restore_fold_frame.
        * rewrite GetPrimAtPath_with_orig_colors.
          by apply (restore_fold_frame _ _ _ rackPowerW).
    - unfold _recompute_and_color, _get_stage. rewrite Hst. simpl. done. }
  destruct Hgen as (H1 & H2 & H3).
  split; [apply H1|]. split; [apply H2|].
  split; [by apply H1|]. split; [by apply H1 | apply H3].
Qed.

(** C10: with no stage loaded both entry points return at once:
    [_recompute_and_color] computes and writes nothing, and
    [_restore_colors] restores nothing and leaves the dict of original
    colours as it was, not cleared. *)
Theorem no_stage_entry_points_do_nothing (w : Ext) :
  _get_stage w = None →
  _recompute_and_color w = Returned w ∧ _restore_colors w = w.
Proof.
  intros H. unfold _recompute_and_color, _restore_colors. by rewrite H.
Qed.

Lemma no_stage_entry_points_do_nothing_witness :
  _recompute_and_color stageless_world = Returned stageless_world ∧
  _restore_colors stageless_world = stageless_world.
Proof. apply no_stage_entry_points_do_nothing. reflexivity. Defined.

(** * Further properties *)

(** ** One iteration, read off the prim *)

Lemma actual_flow_frame (prim prim' : Prim) :
  prim' !! mdotActual = prim !! mdotActual → actual_flow prim' = actual_flow prim.
Proof. unfold actual_flow, read_float, GetAttribute. by intros ->. Qed.

Lemma loop_body_missing cp t mode (w : Ext) (p : string) :
  GetPrimAtPath w p = None → loop_body cp t mode w p = Returned w.
Proof. unfold loop_body. by intros ->. Qed.

Lemma loop_body_step cp t mode (w : Ext) (p : string) (prim : Prim) :
  GetPrimAtPath w p = Some prim →
  match step_prim cp t mode prim with
  | StepSkip => loop_body cp t mode w p = Returned w
  | StepRaise => loop_body cp t mode w p = Raised w
  | StepWrite prim' =>
    ∃ w', loop_body cp t mode w p = Returned w' ∧ edits w w' p prim prim'
  end.
Proof.
  intros Hp. unfold step_prim.
  destruct (heat_load prim) as [pw|] eqn:Hh; [|by eapply heat_load_None_skips].
  destruct (mode =? 0)%Z eqn:Hm.
  - apply Z.eqb_eq in Hm. subst mode.
    rewrite (loop_body_design cp t w p prim pw Hp Hh).
    destruct (t <=? 0)%float; [done|].
    destruct (py_div pw (cp * t)) as [m|]; [|done].
    eexists. split; [done|]. by apply design_write_edits.
  - apply Z.eqb_neq in Hm.
    rewrite (loop_body_audit cp t mode w p prim pw Hm Hp Hh).
    destruct (actual_flow prim) as [mdot|]; [|done].
    destruct (py_div pw (cp * mdot)) as [d|]; [|done].
    eexists. split; [done|]. by apply apply_color_edits.
Qed.

(** A prim that an iteration wrote is written to itself by the next. *)
Lemma step_prim_written cp t mode (prim prim' : Prim) :
  step_prim cp t mode prim = StepWrite prim' →
  step_prim cp t mode prim' = StepWrite prim'.
Proof.
  unfold step_prim.
  destruct (heat_load prim) as [pw|] eqn:Hh; [|done].
  destruct (mode =? 0)%Z.
  - destruct (t <=? 0)%float eqn:Ht; [done|].
    destruct (py_div pw (cp * t)) as [m|] eqn:Hd; [|done].
    intros [= <-].
    rewrite (heat_load_frame prim) by
      (rewrite lookup_insert_ne by done; by rewrite lookup_insert_ne).
    rewrite Hh. cbv iota. rewrite Hd. f_equal.
    rewrite (insert_insert_ne _ mdotRequired displayColor) by done.
    by rewrite !insert_insert_eq.
  - destruct (actual_flow prim) as [mdot|] eqn:Hf; [|done].
    destruct (py_div pw (cp * mdot)) as [d|] eqn:Hd; [|done].
    intros [= <-].
    rewrite (heat_load_frame prim) by (by rewrite lookup_insert_ne).
    rewrite (actual_flow_frame prim) by (by rewrite lookup_insert_ne).
    rewrite Hh, Hf. cbv iota. rewrite Hd. by rewrite insert_insert_eq.
Qed.

Lemma settle_idempotent cp t mode (prim : Prim) :
  settle cp t mode (settle cp t mode prim) = settle cp t mode prim.
Proof.
  unfold settle at 2 3.
  destruct (step_prim cp t mode prim) as [| |prim'] eqn:Hs.
  - unfold settle. by rewrite Hs.
  - unfold settle. by rewrite Hs.
  - unfold settle. by rewrite (step_prim_written _ _ _ _ _ Hs).
Qed.

Lemma settle_raise_iff cp t mode (prim : Prim) :
  step_prim cp t mode (settle cp t mode prim) = StepRaise ↔
  step_prim cp t mode prim = StepRaise.
Proof.
  unfold settle. destruct (step_prim cp t mode prim) as [| |prim'] eqn:Hs;
    [by rewrite Hs | by rewrite Hs |].
  by rewrite (step_prim_written _ _ _ _ _ Hs).
Qed.

(** The prims after one iteration that returns. *)
Lemma loop_body_returned cp t mode (w w' : Ext) (p q : string) :
  loop_body cp t mode w p = Returned w' →
  GetPrimAtPath w' q =
    if decide (q = p) then settle cp t mode <$> GetPrimAtPath w p
    else GetPrimAtPath w q.
Proof.
  intros Hb. destruct (GetPrimAtPath w p) as [prim|] eqn:Hp; simpl.
  - pose proof (loop_body_step cp t mode w p prim Hp) as Hs.
    unfold settle. destruct (step_prim cp t mode prim) as [| |prim'].
    + rewrite Hs in Hb. injection Hb as <-.
      case_decide; [by subst | done].
    + rewrite Hs in Hb. discriminate.
    + destruct Hs as (w1 & Hw1 & [_ Ha Ho _ _]). rewrite Hw1 in Hb.
      injection Hb as <-. case_decide; [by subst | by apply Ho].
  - rewrite loop_body_missing in Hb by done. injection Hb as <-.
    case_decide; [by subst | done].
Qed.

Lemma loop_body_raised cp t mode (w : Ext) (p : string) :
  is_raised (loop_body cp t mode w p) = true ↔
  ∃ prim, GetPrimAtPath w p = Some prim ∧ step_prim cp t mode prim = StepRaise.
Proof.
  destruct (GetPrimAtPath w p) as [prim|] eqn:Hp.
  - pose proof (loop_body_step cp t mode w p prim Hp) as Hs.
    destruct (step_prim cp t mode prim) as [| |prim'] eqn:Hst.
    + rewrite Hs. simpl. split; [done | by intros (? & [= <-] & ?); congruence].
    + rewrite Hs. simpl. split; [eauto | done].
    + destruct Hs as (w1 & -> & _). simpl.
      split; [done | by intros (? & [= <-] & ?); congruence].
  - rewrite loop_body_missing by done. simpl.
    split; [done | by intros (? & ? & ?)].
Qed.

Lemma loop_body_raised_final cp t mode (w : Ext) (p : string) :
  is_raised (loop_body cp t mode w p) = true →
  final (loop_body cp t mode w p) = w.
Proof.
  destruct (loop_body_cases cp t mode w p) as [H|(? & ? & -> & _)]; [done|].
  done.
Qed.

(** ** The prims along the pass *)

Section Pass.
Variables (cp t : float) (mode : Z).

Abbreviation body := (loop_body cp t mode).
Abbreviation settled := (settle cp t mode).


(** A prim that an iteration would leave as it is stays as it is. *)
Lemma for_each_stable (l : list string) (w : Ext) (q : string) :
  settled <$> GetPrimAtPath w q = GetPrimAtPath w q →
  GetPrimAtPath (final (for_each body w l)) q = GetPrimAtPath w q.
Proof.
  revert w. induction l as [|p l IH]; intros w Hq; [done|].
  cbn [for_each]. destruct (body w p) as [w1|w1] eqn:Hb.
  - assert (H1 : GetPrimAtPath w1 q = GetPrimAtPath w q).
    { rewrite (loop_body_returned _ _ _ _ _ _ q Hb).
      case_decide; [by subst | done]. }
    rewrite IH; [done | by rewrite H1].
  - pose proof (loop_body_raised_final cp t mode w p) as Hf.
    rewrite Hb in Hf. simpl in *. by rewrite Hf.
Qed.

Lemma settled_fmap_idempotent (o : option Prim) :
  settled <$> (settled <$> o) = settled <$> o.
Proof. destruct o; simpl; [by rewrite settle_idempotent | done]. Qed.



(** Two worlds with the same prims go through the pass alike. *)
Lemma loop_body_same_prims (w w' : Ext) (p : string) :
  (∀ q, GetPrimAtPath w' q = GetPrimAtPath w q) →
  is_raised (body w' p) = is_raised (body w p) ∧
  (∀ q, GetPrimAtPath (final (body w' p)) q = GetPrimAtPath (final (body w p)) q).
Proof.
  intros Hsame.
  assert (Hiff : is_raised (body w' p) = true ↔ is_raised (body w p) = true).
  { rewrite !loop_body_raised. by rewrite Hsame. }
  destruct (body w p) as [w1|w1] eqn:Hb, (body w' p) as [w1'|w1'] eqn:Hb';
    simpl in *.
  - split; [done|]. intros q.
    rewrite (loop_body_returned _ _ _ _ _ _ q Hb),
      (loop_body_returned _ _ _ _ _ _ q Hb').
    by rewrite !Hsame.
  - destruct Hiff as [Hiff _]. by specialize (Hiff eq_refl).
  - destruct Hiff as [_ Hiff]. by specialize (Hiff eq_refl).
  - split; [done|]. intros q.
    pose proof (loop_body_raised_final cp t mode w p) as H1.
    pose proof (loop_body_raised_final cp t mode w' p) as H2.
    rewrite Hb in H1. rewrite Hb' in H2. simpl in *.
    by rewrite H1, H2.
Qed.

(** The pass run again on its own result ends the same way and changes
    no prim. *)
Lemma for_each_rerun (l : list string) (w w1 : Ext) :
  (∀ q, GetPrimAtPath w1 q = GetPrimAtPath (final (for_each body w l)) q) →
  is_raised (for_each body w1 l) = is_raised (for_each body w l) ∧
  (∀ q, GetPrimAtPath (final (for_each body w1 l)) q =
        GetPrimAtPath (final (for_each body w l)) q).
Proof.
  revert w w1. induction l as [|p l IH]; intros w w1 Hsame; [done|].
  cbn [for_each] in *. destruct (body w p) as [wa|wr] eqn:Hb.
  - assert (Hp : GetPrimAtPath w1 p = settled <$> GetPrimAtPath w p).
    { rewrite Hsame, for_each_stable;
        rewrite (loop_body_returned _ _ _ _ _ _ p Hb); case_decide; try done.
      apply settled_fmap_idempotent. }
    assert (Hnr : is_raised (body w1 p) = false).
    { destruct (is_raised (body w1 p)) eqn:Hr; [|done].
      apply loop_body_raised in Hr as (prim & H1 & H2).
      rewrite Hp in H1. destruct (GetPrimAtPath w p) as [prim0|] eqn:H0; [|done].
      injection H1 as <-. apply (proj1 (settle_raise_iff _ _ _ _)) in H2.
      assert (Hr : is_raised (body w p) = true)
        by (apply loop_body_raised; eauto).
      by rewrite Hb in Hr. }
    destruct (body w1 p) as [w1a|w1r] eqn:Hb1; [|done].
    apply IH. intros q. rewrite <- Hsame.
    rewrite (loop_body_returned _ _ _ _ _ _ q Hb1).
    case_decide; [subst q|done].
    by rewrite Hp, settled_fmap_idempotent.
  - pose proof (loop_body_raised_final cp t mode w p) as Hf.
    rewrite Hb in Hf. simpl in Hf, Hsame |- *. specialize (Hf eq_refl). subst wr.
    destruct (loop_body_same_prims w w1 p Hsame) as [Hr Hq].
    rewrite Hb in Hr, Hq. simpl in Hr, Hq.
    destruct (body w1 p) as [w1a|w1r]; [done|]. simpl in *. done.
Qed.



End Pass.

(** ** The entry points *)

Lemma recompute_enabled (w : Ext) (st : Stage) :
  _get_stage w = Some st → _color_override_enabled_model w = true →
  _recompute_and_color w = full_pass w st.
Proof.
  intros Hst Hen. unfold _recompute_and_color, full_pass, clamped_cp.
  by rewrite Hst, Hen.
Qed.







Lemma stage_ext (w w' : Ext) :
  is_Some (usd_stage w) →
  (∀ q, GetPrimAtPath w' q = GetPrimAtPath w q) →
  Traverse <$> usd_stage w' = Traverse <$> usd_stage w →
  usd_stage w' = usd_stage w.
Proof.
  intros [st Hst] Hp Ht. rewrite Hst in Ht.
  destruct (usd_stage w') as [[ps' tr']|] eqn:Hst'; [|done].
  destruct st as [ps tr]. simpl in Ht. injection Ht as ->.
  rewrite Hst. do 2 f_equal. apply map_eq. intros q. specialize (Hp q).
  unfold GetPrimAtPath in Hp. by rewrite Hst, Hst' in Hp.
Qed.

(** X3: Running the pass again, with nothing changed in between, ends the
    same way (returns or raises) and leaves the stage as the first run
    left it. *)
Theorem recompute_again_same_stage (w : Ext) (st : Stage) :
  _get_stage w = Some st →
  _color_override_enabled_model w = true →
  let o1 := _recompute_and_color w in
  let o2 := _recompute_and_color (final o1) in
  is_raised o2 = is_raised o1 ∧ usd_stage (final o2) = usd_stage (final o1).
Proof.
  intros Hst Hen. cbv zeta.
  destruct (full_pass_inv w st Hst Hen) as [Hcfg _ _ _ _ _ _].
  rewrite (recompute_enabled w st Hst Hen) in *.
  set (w1 := final (full_pass w st)) in *.
  destruct Hcfg as (Hcp & Ht & Hm & Hen1 & Htr). simpl in Hcp, Ht, Hm, Hen1, Htr.
  unfold _get_stage in Hst. rewrite Hst in Htr.
  destruct (usd_stage w1) as [st1|] eqn:Hst1; [|done].
  simpl in Htr. injection Htr as Htr.
  assert (Hen1' : _color_override_enabled_model w1 = true) by congruence.
  rewrite (recompute_enabled w1 st1 Hst1 Hen1').
  unfold full_pass at 1 3, clamped_cp. rewrite Hcp, Ht, Hm, Htr.
  destruct (for_each_rerun (py_max (_cp_model w) 1e-6) (_target_dt_model w)
              (_mode_model w) (Traverse st) (with_orig_colors w [])
              (with_orig_colors w1 [])) as [Hr Hp].
  { intros q. by rewrite GetPrimAtPath_with_orig_colors. }
  split; [done|].
  rewrite <- Hst1. apply stage_ext.
  - rewrite Hst1. eauto.
  - intros q. by rewrite Hp.
  - pose proof (for_each_invariant
      (λ x, Traverse <$> usd_stage x = Traverse <$> usd_stage w1)
      (loop_body (py_max (_cp_model w) 1e-6) (_target_dt_model w) (_mode_model w))
      (Traverse st) (with_orig_colors w1 [])) as Hinv.
    apply Hinv; [|done]. intros x p Hx.
    destruct (loop_body_cases (py_max (_cp_model w) 1e-6) (_target_dt_model w)
                (_mode_model w) x p) as [->|(? & ? & _ & _ & [_ _ _ _ Hc])];
      [done|].
    destruct Hc as (_ & _ & _ & _ & Hc). congruence.
Qed.

Lemma recompute_again_same_stage_witness :
  let o1 := _recompute_and_color sample_world in
  let o2 := _recompute_and_color (final o1) in
  is_raised o2 = is_raised o1 ∧ usd_stage (final o2) = usd_stage (final o1).
Proof.
  apply (recompute_again_same_stage sample_world sample_stage); reflexivity.
Defined.



(** X5: The restore pass run twice in a row is the restore pass run once. *)
Theorem restore_colors_idempotent (w : Ext) :
  _restore_colors (_restore_colors w) = _restore_colors w.
Proof.
  unfold _restore_colors at 2 3. unfold _get_stage.
  destruct (usd_stage w) as [st|] eqn:Hst.
  - set (w1 := fold_left restore_one (_orig_colors w) w).
    destruct (restore_fold_rest (_orig_colors w) w) as (_ & _ & Hs).
    destruct Hs as [st1 Hst1]; [rewrite Hst; eauto|]. fold w1 in Hst1.
    unfold _restore_colors, _get_stage. simpl. by rewrite Hst1.
  - unfold _restore_colors, _get_stage. by rewrite Hst.
Qed.

(** X6: The restore pass changes no attribute other than the display colour,
    adds or removes no prim, and leaves the configuration alone. *)
Theorem restore_colors_frame (w : Ext) (q name : string) :
  (name ≠ displayColor →
   attr_at (_restore_colors w) q name = attr_at w q name) ∧
  (is_Some (GetPrimAtPath (_restore_colors w) q) ↔ is_Some (GetPrimAtPath w q)) ∧
  same_config w (_restore_colors w).
Proof.
  unfold _restore_colors, _get_stage.
  destruct (usd_stage w) as [st|] eqn:Hst;
    [|split; [done | split; [done | apply same_config_refl]]].
  split; [|split].
  - intros Hne. unfold attr_at at 1. rewrite GetPrimAtPath_with_orig_colors.
    by apply restore_fold_frame.
  - rewrite GetPrimAtPath_with_orig_colors.
    by apply (restore_fold_frame _ _ _ rackPowerW).
  - destruct (restore_fold_rest (_orig_colors w) w) as (_ & Hc & _).
    eapply same_config_trans; [exact Hc | apply same_config_with_orig_colors].
Qed.



(** ** The batch form *)













(** ** The order of binary64 numbers *)

Lemma lex_lt_trans (ed er e : Z) (md mr m : positive) :
  match (ed ?= er)%Z with Lt => Lt | Gt => Gt | Eq => (md ?= mr)%positive end = Lt →
  match (e ?= er)%Z with Lt => Lt | Gt => Gt | Eq => (m ?= mr)%positive end ≠ Lt →
  match (ed ?= e)%Z with Lt => Lt | Gt => Gt | Eq => (md ?= m)%positive end = Lt.
Proof.
  destruct (Z.compare_spec ed er) as [H1|H1|H1]; [|intros _|done].
  - subst ed. intros Hm. change (md < mr)%positive in Hm.
    destruct (Z.compare_spec e er) as [H2|H2|H2]; [|done|].
    + subst e. intros Hn. rewrite Z.compare_refl.
      apply Pos.compare_lt_iff.
      destruct (Pos.compare_spec m mr); [lia | done | lia].
    + intros _. by apply Z.compare_lt_iff in H2 as ->.
  - destruct (Z.compare_spec e er) as [H2|H2|H2]; [|done|].
    + subst e. intros _. by apply Z.compare_lt_iff in H1 as ->.
    + intros _. assert (H3 : (ed < e)%Z) by lia.
      by apply Z.compare_lt_iff in H3 as ->.
Qed.

Lemma SFltb_below_trans (d r : spec_float) (m : positive) (e : Z) :
  SFltb d r = true →
  SFltb (S754_finite false m e) r = false →
  SFltb d (S754_finite false m e) = true.
Proof.
  unfold SFltb, SFcompare.
  destruct d as [sd|sd| |sd md ed], r as [sr|sr| |sr mr er];
    try destruct sd; try destruct sr; try done.
  change (Pos.compare_cont Eq md mr) with (md ?= mr)%positive.
  change (Pos.compare_cont Eq m mr) with (m ?= mr)%positive.
  change (Pos.compare_cont Eq md m) with (md ?= m)%positive.
  intros H1 H2.
  rewrite (lex_lt_trans ed er e md mr m); [done| |].
  - by destruct (match (ed ?= er)%Z with Lt => Lt | Gt => Gt | Eq => (md ?= mr)%positive end).
  - by destruct (match (e ?= er)%Z with Lt => Lt | Gt => Gt | Eq => (m ?= mr)%positive end).
Qed.

Lemma Prim2SF_floor :
  Prim2SF 1e-6 = S754_finite false 4722366482869645 (-72).
Proof. reflexivity. Qed.

Lemma lex_not_lt_flip (e ek : Z) (m mk : positive) :
  match (e ?= ek)%Z with Lt => Lt | Gt => Gt | Eq => (m ?= mk)%positive end ≠ Lt →
  match (ek ?= e)%Z with Lt => Lt | Gt => Gt | Eq => (mk ?= m)%positive end ≠ Gt.
Proof.
  rewrite (Z.compare_antisym e ek), (Pos.compare_antisym m mk).
  destruct (e ?= ek)%Z; simpl; [|done..].
  by destruct (m ?= mk)%positive.
Qed.

Lemma SF_not_below_nonzero (x : spec_float) (mk : positive) (ek : Z) :
  SFltb x (S754_finite false mk ek) = false →
  SFeqb x (S754_zero false) = false.
Proof.
  unfold SFltb, SFeqb, SFcompare.
  destruct x as [s|s| |s m e]; [done | by destruct s | done | by destruct s].
Qed.

Lemma SF_not_below_leb (x : spec_float) (mk : positive) (ek : Z) :
  SFltb x (S754_finite false mk ek) = false →
  SFeqb x x = true →
  SFleb (S754_finite false mk ek) x = true.
Proof.
  unfold SFltb, SFleb, SFeqb, SFcompare.
  destruct x as [s|s| |s m e]; [done | by destruct s | done |].
  destruct s; [done|]. intros H _.
  change (Pos.compare_cont Eq m mk) with (m ?= mk)%positive in H.
  change (Pos.compare_cont Eq mk m) with (mk ?= m)%positive.
  pose proof (lex_not_lt_flip e ek m mk) as Hf.
  destruct (match (e ?= ek)%Z with Lt => Lt | Gt => Gt | Eq => (m ?= mk)%positive end);
    [| done |];
    (destruct (match (ek ?= e)%Z with Lt => Lt | Gt => Gt | Eq => (mk ?= m)%positive end);
     [done | done | exfalso; by apply Hf]).
Qed.

Lemma float_not_below_floor (c : float) :
  (c <? 1e-6)%float = false →
  (c =? 0)%float = false ∧ (is_nan c = false → (1e-6 <=? c)%float = true).
Proof.
  unfold is_nan. rewrite ltb_spec, leb_spec, !FloatAxioms.eqb_spec, Prim2SF_floor.
  intros H. split.
  - eapply SF_not_below_nonzero. exact H.
  - intros Hn. apply negb_false_iff in Hn. by apply SF_not_below_leb.
Qed.

Lemma float_nan_not_below (c k : float) :
  is_nan c = true → (c <? k)%float = false.
Proof.
  unfold is_nan. rewrite ltb_spec, FloatAxioms.eqb_spec.
  intros H. apply negb_true_iff in H. revert H.
  unfold SFeqb, SFltb, SFcompare.
  destruct (Prim2SF c) as [s|s| |s m e]; [done | by destruct s | done |].
  destruct s; by rewrite Z.compare_refl, Pos.compare_cont_refl.
Qed.

(** X10: The clamp of the specific heat, [max(cp, 1e-6)]: the result is never
    zero and never below the floor; it is at least the floor unless the
    model holds NaN, which the clamp lets through. *)
Theorem clamped_cp_floor (w : Ext) :
  (clamped_cp w =? 0)%float = false ∧
  (clamped_cp w <? 1e-6)%float = false ∧
  (is_nan (_cp_model w) = false → (1e-6 <=? clamped_cp w)%float = true) ∧
  (is_nan (_cp_model w) = true → clamped_cp w = _cp_model w).
Proof.
  unfold clamped_cp, py_max.
  destruct (_cp_model w <? 1e-6)%float eqn:E.
  - split; [reflexivity|]. split; [reflexivity|]. split; [reflexivity|].
    intros Hn. by rewrite (float_nan_not_below _ _ Hn) in E.
  - destruct (float_not_below_floor _ E) as [H0 H1]. done.
Qed.

(** X11: Green is only given below the target: for a finite target that is not
    [<= 0], a temperature rise classified [Under] is below the target. *)
Theorem under_is_below_target (d t : float) :
  (t <=? 0)%float = false → is_finite t = true →
  classify d t = Under → (d <? t)%float = true.
Proof.
  intros Hle Hfin Hc.
  destruct (finite_positive_inv t Hle Hfin) as (m & e & Ht & Hb).
  assert (Hu : (d <? t - tol)%float = true).
  { unfold classify in Hc. rewrite Hle in Hc.
    destruct (d <? t - tol)%float; [done|].
    by destruct (abs (d - t) <=? tol)%float. }
  rewrite ltb_spec in Hu |- *. rewrite sub_spec, Ht, Prim2SF_tol in Hu.
  rewrite Ht. eapply SFltb_below_trans; [exact Hu|].
  by apply SFsub_below.
Qed.

Lemma under_is_below_target_witness : (5 <? 10)%float = true.
Proof. apply (under_is_below_target 5 10); reflexivity. Defined.

(** X12: Whatever the pass colours, it colours with an array of one of the four
    fixed colours: after a pass, every prim that is a key of the dict has
    an authored display colour that is the colour of a band. *)
Theorem pass_paints_band_colors (w : Ext) (st : Stage) (q : string) :
  _get_stage w = Some st →
  _color_override_enabled_model w = true →
  q ∈ keys (_orig_colors (final (_recompute_and_color w))) →
  ∃ b, color_at (final (_recompute_and_color w)) q =
         Some (VColor3fArray [band_color b]).
Proof.
  intros Hst Hen Hk.
  destruct (full_pass_inv w st Hst Hen) as [_ _ _ _ _ _ Hto].
  destruct (Hto q Hk) as (prim0 & prim & d & _ & _ & _ & H1 & Hc).
  exists (classify d (_target_dt_model w)).
  unfold color_at, authored_color, GetAttribute. by rewrite H1, Hc.
Qed.

Lemma pass_paints_band_colors_witness :
  ∃ b, color_at (final (_recompute_and_color sample_world)) "/World/Rack" =
         Some (VColor3fArray [band_color b]).
Proof.
  apply (pass_paints_band_colors sample_world sample_stage "/World/Rack").
  - reflexivity.
  - reflexivity.
  - apply (bool_decide_unpack _). vm_compute. reflexivity.
Defined.
